(** * Producer / consumer integer transfer: a shallow embedding

    The repository holds two C programs.  [producer.c] forks the consumer,
    connects to it over TCP with a bounded retry loop, and runs worker
    threads that read integers from a file under [file_mutex] and send each
    one as a 4-byte frame.  [consumer.c] accepts one connection under a
    5 second alarm and runs worker threads that receive frames and append
    the decoded integers to [data_array] under [array_mutex].

    Layout of this file:
    - [Wire]      the integer casts, [htonl]/[ntohl] and the bytes of a frame;
    - [Sys]       system calls as events and a small monad for [main];
    - [Consumer]  the consumer worker as a per-thread step function over the
                  shared globals, and [main];
    - [Producer]  the producer worker, the connect loop and [main];
    - [Link]      the two pools of workers on one connection;
    - the lemmas and theorems about them.

    A C [int] or [uint32_t] is a [Z] with the wrap-around written out.  A
    worker thread is a program counter; one step of one thread executes one
    statement of the source, so that every interleaving the mutex allows is
    a run of the model.  What the environment decides (the scheduler, the
    return values of system calls, the bytes that arrive) is an argument. *)

From Stdlib Require Import ZArith Lia List String.
From coqutil Require Import Byte.
From stdpp Require Import base list.
Local Open Scope Z_scope.

(* ===================================================================== *)
(** ** Wire format *)
(* ===================================================================== *)

Module Wire.

(** [(uint32_t) z] and [(int) z] for a 32-bit two's complement [int]. *)
Definition to_uint32 (z : Z) : Z := z mod 2 ^ 32.
Definition to_int (z : Z) : Z := (z + 2 ^ 31) mod 2 ^ 32 - 2 ^ 31.
Definition int_range (v : Z) : Prop := - 2 ^ 31 <= v < 2 ^ 31.

(** The byte order of the machine the program runs on. *)
Inductive byte_order : Type := LittleEndian | BigEndian.

(** The byte swap [htonl] and [ntohl] perform on a little-endian host. *)
Definition bswap_32 (x : Z) : Z :=
  Z.lor (Z.lor (Z.shiftl (Z.land x 255) 24) (Z.shiftl (Z.land x 65280) 8))
        (Z.lor (Z.land (Z.shiftr x 8) 65280) (Z.land (Z.shiftr x 24) 255)).

Definition htonl (host : byte_order) (hostlong : Z) : Z :=
  match host with LittleEndian => bswap_32 hostlong | BigEndian => hostlong end.

Definition ntohl (host : byte_order) (netlong : Z) : Z :=
  match host with LittleEndian => bswap_32 netlong | BigEndian => netlong end.

(** The four bytes of a 32-bit word, most significant first, and back. *)
Definition be_bytes (x : Z) : list byte :=
  [byte.of_Z (Z.shiftr x 24); byte.of_Z (Z.shiftr x 16);
   byte.of_Z (Z.shiftr x 8); byte.of_Z x].

Fixpoint be_combine (acc : Z) (bs : list byte) : Z :=
  match bs with
  | [] => acc
  | b :: bs' => be_combine (Z.lor (Z.shiftl acc 8) (byte.unsigned b)) bs'
  end.

(** The bytes of a [uint32_t] object in memory, which is what
    [send (fd, &net_val, 4, 0)] reads and [recv (fd, &net_val, 4, _)]
    writes. *)
Definition object_bytes (host : byte_order) (x : Z) : list byte :=
  match host with
  | LittleEndian => rev (be_bytes x)
  | BigEndian => be_bytes x
  end.

Definition object_value (host : byte_order) (bs : list byte) : Z :=
  match host with
  | LittleEndian => be_combine 0 (rev bs)
  | BigEndian => be_combine 0 bs
  end.

(** producer.c:63-64, the bytes handed to [send] for [value]. *)
Definition send_frame (host : byte_order) (value : Z) : list byte :=
  object_bytes host (htonl host (to_uint32 value)).

(** consumer.c:61 and 77, the [int] obtained from four received bytes. *)
Definition recv_value (host : byte_order) (buf : list byte) : Z :=
  to_int (ntohl host (object_value host buf)).

End Wire.

(* ===================================================================== *)
(** ** System calls and the monad of [main] *)
(* ===================================================================== *)

Module Sys.

Inductive signal : Type := SIGPIPE | SIGALRM | SIGTERM.
Inductive handler : Type := SIG_DFL | SIG_IGN | Handler (name : string).
Inductive errno : Type := ECONNREFUSED | ENETUNREACH | Errno (other : Z).

(** <stdlib.h> is not part of the repository; its value on the platforms the
    programs name (Linux, macOS) is 1. *)
Definition EXIT_FAILURE : Z := 1.

(** What the main thread does, in program order. *)
Inductive call : Type :=
| Socket (ret : Z)
| Setsockopt (fd : Z)
| Bind (fd port : Z)
| Listen (fd backlog : Z)
| Signal (sig : signal) (h : handler)
| Alarm (seconds : Z)
| Accept (fd : Z)
| Connect (fd : Z)
| Close (fd : Z)
| Usleep (usec : Z)
| Fork
| Execl (path : string)
| Fopen (name : string)
| Fclose
| Kill (pid : Z) (sig : signal)
| Waitpid (pid : Z)
| Pthread_create (i : nat)
| Pthread_join (i : nat)
| Pthread_mutex_destroy
| Perror (msg : string)
| Fprintf_stderr (msg : string).

(** A computation either goes on with a value, leaves the process through
    [exit] or a [return] from [main], replaces the process image, or never
    comes back: a loop that has used up its fuel, a system call that waits
    for ever. *)
Inductive res (A : Type) : Type :=
| Done (a : A)
| Exit (code : Z)
| Exec (path : string)
| Spin.
Arguments Done {A} a.
Arguments Exit {A} code.
Arguments Exec {A} path.
Arguments Spin {A}.

Definition M (A : Type) : Type := list call -> res A * list call.

#[global] Instance M_ret : MRet M := fun A a tr => (Done a, tr).

#[global] Instance M_bind : MBind M := fun A B f m tr =>
  match m tr with
  | (Done a, tr') => f a tr'
  | (Exit c, tr') => (Exit c, tr')
  | (Exec p, tr') => (Exec p, tr')
  | (Spin, tr') => (Spin, tr')
  end.

Definition emit (c : call) : M unit := fun tr => (Done tt, tr ++ [c]).
Definition exit {A : Type} (code : Z) : M A := fun tr => (Exit code, tr).
Definition exec {A : Type} (path : string) : M A := fun tr => (Exec path, tr).
Definition spin {A : Type} : M A := fun tr => (Spin, tr).
Definition syscall (c : call) (ret : Z) : M Z := emit c;; mret ret.

(** How a process ended, as its parent sees it: it exited with a code, it
    became another program, a signal terminated it, it is still waiting in
    [pthread_join] when the schedule ends, or it loops or waits for ever. *)
Inductive status : Type :=
| Exited (code : Z)
| Replaced (path : string)
| Signaled (sig : signal)
| Joining
| Diverged.

(** The machine a process runs on. *)
Record platform : Type := { host : Wire.byte_order; getpid : Z }.

Definition is_signal (c : call) : bool :=
  match c with Signal _ _ => true | _ => false end.

Definition signal_eqb (a b : signal) : bool :=
  match a, b with
  | SIGPIPE, SIGPIPE | SIGALRM, SIGALRM | SIGTERM, SIGTERM => true
  | _, _ => false
  end.

(** The disposition of [sig] after the calls in [tr], when it was [h]
    before them. *)
Fixpoint disposition (sig : signal) (tr : list call) (h : handler) : handler :=
  match tr with
  | [] => h
  | Signal sig' h' :: tr' =>
      disposition sig tr' (if signal_eqb sig sig' then h' else h)
  | _ :: tr' => disposition sig tr' h
  end.

(** [for (i = 0; i < NUM_THREADS; i++) if (pthread_create (..) != 0)
    { perror; break; } created++;] with [fuel = NUM_THREADS - i]. *)
Fixpoint create_loop (pthread_create_ret : nat -> Z) (fuel i created : nat) : M nat :=
  match fuel with
  | O => mret created
  | S fuel' =>
      r ← syscall (Pthread_create i) (pthread_create_ret i);
      if negb (r =? 0) then emit (Perror "pthread_create");; mret created
      else create_loop pthread_create_ret fuel' (S i) (S created)
  end.

(** [for (i = 0; i < created; i++) pthread_join (threads[i], NULL);] *)
Fixpoint join_loop (fuel i : nat) : M unit :=
  match fuel with
  | O => mret tt
  | S fuel' => emit (Pthread_join i);; join_loop fuel' (S i)
  end.

(** Kinds of calls, to read the descriptors, the child and the workers
    off a trace. *)
Definition is_close (c : call) : bool :=
  match c with Close _ => true | _ => false end.

Definition is_socket_made (c : call) : bool :=
  match c with Socket fd => 0 <=? fd | _ => false end.

Definition is_fclose (c : call) : bool :=
  match c with Fclose => true | _ => false end.

Definition is_reap (c : call) : bool :=
  match c with Kill _ _ | Waitpid _ => true | _ => false end.

Definition is_create (c : call) : bool :=
  match c with Pthread_create _ => true | _ => false end.

Definition count (p : call -> bool) (tr : list call) : nat :=
  length (List.filter p tr).

End Sys.

(* ===================================================================== *)
(** ** consumer.c *)
(* ===================================================================== *)

Module Consumer.
Import Wire Sys.

Definition NUM_THREADS : nat := 2.
Definition PORT : Z := 12345.
Definition MAX_DATA : Z := 100.

(** Where a worker is in [consumer_thread_func]; the line of consumer.c it
    is about to execute. *)
Inductive pc : Type :=
| AtLock                    (* 51  pthread_mutex_lock *)
| AtCheck                   (* 54  if (data_index >= MAX_DATA) *)
| AtRecv                    (* 61  recv *)
| AtPerror                  (* 67  perror *)
| AtPartial                 (* 72  fprintf (stderr, ..) *)
| AtNtohl (net_val : Z)     (* 77  value = (int) ntohl (net_val) *)
| AtStore (value : Z)       (* 79  data_array[data_index++] = value *)
| AtPrintf (value : Z)      (* 81  printf *)
| AtUnlock                  (* 83  pthread_mutex_unlock, next iteration *)
| AtUnlockBreak             (* 55, 64, 68, 73  pthread_mutex_unlock; break *)
| Returned.                 (* 85  return NULL *)

Inductive event : Type :=
| Recv (tid : nat) (n : Z) (buf : list byte)
| Recv_failed (tid : nat) (msg : string)
| Partial_read (tid : nat) (msg : string)
| Inserted (pid : Z) (tid : nat) (value : Z).

(** The globals of consumer.c, the workers, and what they have received and
    printed so far, latest first.  [out_of_bounds] records a store outside
    [data_array]. *)
Record state : Type := mkState {
  data_array : list Z;
  data_index : Z;
  array_mutex : option nat;
  threads : list pc;
  output : list event;
  out_of_bounds : bool
}.

Definition set_pc (t : nat) (p : pc) (s : state) : state :=
  mkState (data_array s) (data_index s) (array_mutex s)
          (<[t := p]> (threads s)) (output s) (out_of_bounds s).

Definition set_mutex (m : option nat) (s : state) : state :=
  mkState (data_array s) (data_index s) m (threads s) (output s) (out_of_bounds s).

Definition log (e : event) (s : state) : state :=
  mkState (data_array s) (data_index s) (array_mutex s) (threads s)
          (e :: output s) (out_of_bounds s).

(** [data_array[data_index++] = value;] *)
Definition store (value : Z) (s : state) : state :=
  if (0 <=? data_index s) && (data_index s <? MAX_DATA) then
    mkState (<[Z.to_nat (data_index s) := value]> (data_array s))
            (to_int (data_index s + 1))
            (array_mutex s) (threads s) (output s) (out_of_bounds s)
  else
    mkState (data_array s) (to_int (data_index s + 1))
            (array_mutex s) (threads s) (output s) true.

(** What [recv (conn_fd, &net_val, 4, MSG_WAITALL)] can hand back: -1 and
    nothing, or [n] bytes for [0 <= n <= 4]. *)
Definition recv_ok (n : Z) (buf : list byte) : bool :=
  ((n =? -1) && (Z.of_nat (length buf) =? 0))
  || ((0 <=? n) && (n <=? 4) && (Z.of_nat (length buf) =? n)).

(** One statement of worker [t].  [r] is what [recv] returns if the worker
    is at line 61.  [None]: the worker cannot move (it waits for the mutex,
    it has returned, there is no such worker). *)
Definition thread_step (pf : platform) (t : nat) (r : Z * list byte) (s : state)
  : option state :=
  match threads s !! t with
  | None => None
  | Some AtLock =>
      match array_mutex s with
      | None => Some (set_pc t AtCheck (set_mutex (Some t) s))
      | Some _ => None
      end
  | Some AtCheck =>
      Some (set_pc t (if MAX_DATA <=? data_index s then AtUnlockBreak else AtRecv) s)
  | Some AtRecv =>
      let n := r.1 in
      let buf := r.2 in
      if recv_ok n buf then
        Some (set_pc t
                (if n =? 0 then AtUnlockBreak
                 else if n <? 0 then AtPerror
                 else if negb (n =? 4) then AtPartial
                 else AtNtohl (object_value (host pf) buf))
                (log (Recv t n buf) s))
      else None
  | Some AtPerror =>
      Some (set_pc t AtUnlockBreak (log (Recv_failed t "recv failed") s))
  | Some AtPartial =>
      Some (set_pc t AtUnlockBreak (log (Partial_read t "Partial read from socket") s))
  | Some (AtNtohl net_val) =>
      Some (set_pc t (AtStore (to_int (ntohl (host pf) net_val))) s)
  | Some (AtStore value) =>
      Some (set_pc t (AtPrintf value) (store value s))
  | Some (AtPrintf value) =>
      Some (set_pc t AtUnlock (log (Inserted (getpid pf) t value) s))
  | Some AtUnlock =>
      Some (set_pc t AtLock (set_mutex None s))
  | Some AtUnlockBreak =>
      Some (set_pc t Returned (set_mutex None s))
  | Some Returned => None
  end.

(** The globals as the loader leaves them, with [n] workers created. *)
Definition init (n : nat) : state :=
  mkState (replicate (Z.to_nat MAX_DATA) 0) 0 None (replicate n AtLock) [] false.

Inductive reachable (pf : platform) (n : nat) : state -> Prop :=
| reach_init : reachable pf n (init n)
| reach_step s t r s' :
    reachable pf n s -> thread_step pf t r s = Some s' -> reachable pf n s'.

(** Runs from a given state on. *)
Inductive steps (pf : platform) : state -> state -> Prop :=
| steps_refl s : steps pf s s
| steps_step s t r s' s'' :
    thread_step pf t r s = Some s' -> steps pf s' s'' -> steps pf s s''.

(** Worker [t] alone, one statement per element of [rs]. *)
Fixpoint thread_run (pf : platform) (t : nat) (rs : list (Z * list byte)) (s : state)
  : option state :=
  match rs with
  | [] => Some s
  | r :: rs' =>
      match thread_step pf t r s with
      | Some s' => thread_run pf t rs' s'
      | None => None
      end
  end.

(** A schedule names the worker that moves next and what its [recv] would
    return; a worker that cannot move is passed over. *)
Fixpoint run (pf : platform) (sched : list (nat * (Z * list byte))) (s : state) : state :=
  match sched with
  | [] => s
  | (t, r) :: sched' =>
      match thread_step pf t r s with
      | Some s' => run pf sched' s'
      | None => run pf sched' s
      end
  end.

Definition is_returned (p : pc) : bool :=
  match p with Returned => true | _ => false end.

Definition all_returned (s : state) : bool := forallb is_returned (threads s).

(** A worker between lines 51 and 83 holds [array_mutex]. *)
Definition holds (p : pc) : bool :=
  match p with
  | AtLock | Returned => false
  | _ => true
  end.

(** A worker past the test of line 54 that has not stored yet. *)
Definition checked (p : pc) : bool :=
  match p with
  | AtRecv | AtNtohl _ | AtStore _ => true
  | _ => false
  end.

(** The paths of one iteration that end the loop after [recv]. *)
Definition abnormal (p : pc) : bool :=
  match p with
  | AtPerror | AtPartial | AtUnlockBreak => true
  | _ => false
  end.

(** [net_val] is what line 61 made of some complete frame received. *)
Definition framed (pf : platform) (s : state) (net_val : Z) : Prop :=
  exists t buf, In (Recv t 4 buf) (output s) /\ length buf = 4%nat
                /\ net_val = object_value (host pf) buf.

(** [v] is what lines 61 and 77 make of some complete frame received. *)
Definition decoded (pf : platform) (s : state) (v : Z) : Prop :=
  exists t buf, In (Recv t 4 buf) (output s) /\ length buf = 4%nat
                /\ v = recv_value (host pf) buf.

(** What holds between any two statements of any run. *)
Record inv (pf : platform) (s : state) : Prop := {
  inv_index : 0 <= data_index s <= MAX_DATA;
  inv_length : length (data_array s) = Z.to_nat MAX_DATA;
  inv_bounds : out_of_bounds s = false;
  inv_owner : forall t p, threads s !! t = Some p -> holds p = true ->
                          array_mutex s = Some t;
  inv_room : forall t p, threads s !! t = Some p -> checked p = true ->
                         data_index s < MAX_DATA;
  inv_net : forall t net_val, threads s !! t = Some (AtNtohl net_val) ->
                               framed pf s net_val;
  inv_value : forall t v, threads s !! t = Some (AtStore v) -> decoded pf s v;
  inv_slots : forall k v, (k < Z.to_nat (data_index s))%nat ->
                          data_array s !! k = Some v -> decoded pf s v
}.

(** The answers of the operating system to [main].  [sigalrm_delivered]:
    the alarm goes off while [main] waits in [accept].  [accept_ret]: what
    [accept] returns when it returns; negative after the alarm has gone off
    is the interruption of the call by the signal, with nobody connecting.
    [sa_restart]: [signal] has installed the handler so that a system call
    it interrupts is restarted instead of failing with EINTR, as the BSD
    semantics of [signal] does (the default of the GNU C library, and
    macOS); false for the System V semantics. *)
Record env : Type := {
  socket_ret : Z;
  setsockopt_ret : Z;
  bind_ret : Z;
  listen_ret : Z;
  accept_ret : Z;
  sigalrm_delivered : bool;
  sa_restart : bool;
  pthread_create_ret : nat -> Z;
  schedule : list (nat * (Z * list byte))
}.

(** consumer.c:38-41 *)
Definition alarm_handler (timed_out : Z) : Z := 1.

(** The alarm goes off while [accept] waits, and nobody connects. *)
Definition interrupted (e : env) : bool :=
  sigalrm_delivered e && (accept_ret e <? 0).

(** consumer.c:133, [accept (listen_fd, ..)] under the alarm of line 128.
    The alarm is delivered once.  When it interrupts the call and the
    kernel restarts the call, nothing bounds the wait any more: with nobody
    connecting, [accept] does not return. *)
Definition accept (e : env) (listen_fd : Z) : M Z :=
  emit (Accept listen_fd);;
  if interrupted e && sa_restart e then spin else mret (accept_ret e).

(** consumer.c:89-161, up to and including the creation of the workers;
    the value is [created]. *)
Definition setup (e : env) : M nat :=
  listen_fd ← syscall (Socket (socket_ret e)) (socket_ret e);
  (if listen_fd <? 0 then
     emit (Perror "socket creation failed");; exit EXIT_FAILURE
   else mret tt);;
  r ← syscall (Setsockopt listen_fd) (setsockopt_ret e);
  (if r <? 0 then
     emit (Perror "setsockopt failed");; emit (Close listen_fd);; exit EXIT_FAILURE
   else mret tt);;
  r ← syscall (Bind listen_fd PORT) (bind_ret e);
  (if r <? 0 then
     emit (Perror "bind failed");; emit (Close listen_fd);; exit EXIT_FAILURE
   else mret tt);;
  r ← syscall (Listen listen_fd 1) (listen_ret e);
  (if r <? 0 then
     emit (Perror "listen failed");; emit (Close listen_fd);; exit EXIT_FAILURE
   else mret tt);;
  emit (Signal SIGALRM (Handler "alarm_handler"));;
  emit (Alarm 5);;
  conn_fd ← accept e listen_fd;
  let timed_out := if sigalrm_delivered e then alarm_handler 0 else 0 in
  (if conn_fd <? 0 then
     if negb (timed_out =? 0) then
       emit (Fprintf_stderr "No producer connected within timeout period");;
       emit (Close listen_fd);;
       emit Pthread_mutex_destroy;;
       exit 0
     else
       emit (Perror "accept failed");;
       emit (Close listen_fd);;
       emit Pthread_mutex_destroy;;
       exit EXIT_FAILURE
   else mret tt);;
  emit (Alarm 0);;
  emit (Close listen_fd);;
  create_loop (pthread_create_ret e) NUM_THREADS 0 0.

(** consumer.c:163-170 *)
Definition teardown (e : env) (created : nat) : M unit :=
  join_loop created 0;;
  emit (Close (accept_ret e));;
  emit Pthread_mutex_destroy;;
  exit 0.

Record result : Type := {
  exit_status : status;
  globals : state;
  calls : list call
}.

Definition main (pf : platform) (e : env) : result :=
  match setup e [] with
  | (Done created, tr) =>
      let s := run pf (schedule e) (init created) in
      if all_returned s then
        match teardown e created tr with
        | (Exit code, tr') => {| exit_status := Exited code; globals := s; calls := tr' |}
        | (_, tr') => {| exit_status := Diverged; globals := s; calls := tr' |}
        end
      else {| exit_status := Joining; globals := s; calls := tr |}
  | (Exit code, tr) => {| exit_status := Exited code; globals := init 0; calls := tr |}
  | (Exec path, tr) => {| exit_status := Replaced path; globals := init 0; calls := tr |}
  | (Spin, tr) => {| exit_status := Diverged; globals := init 0; calls := tr |}
  end.

(** The setup errors after which [main] leaves through
    [exit (EXIT_FAILURE)]: the first of [socket], [setsockopt], [bind],
    [listen] to fail, or an [accept] that fails before the alarm. *)
Definition setup_fails (e : env) : bool :=
  (socket_ret e <? 0) || (setsockopt_ret e <? 0) || (bind_ret e <? 0)
  || (listen_ret e <? 0) || ((accept_ret e <? 0) && negb (sigalrm_delivered e)).


(** Inputs to run the definitions on.  [sched0]: worker 0 inserts one
    value, then worker 1 finds the connection closed. *)
Definition pf0 : platform := {| host := LittleEndian; getpid := 4242 |}.

Definition sched0 : list (nat * (Z * list byte)) :=
  [(0%nat, (0, [])); (0%nat, (0, [])); (0%nat, (4, send_frame LittleEndian (-7)));
   (0%nat, (0, [])); (0%nat, (0, [])); (0%nat, (0, [])); (0%nat, (0, []));
   (1%nat, (0, [])); (1%nat, (0, [])); (1%nat, (0, [])); (1%nat, (0, []))].

(** Nobody connects and the alarm goes off, on a system where [signal]
    has the BSD semantics. *)
Definition env_timeout : env :=
  {| socket_ret := 3; setsockopt_ret := 0; bind_ret := 0; listen_ret := 0;
     accept_ret := -1; sigalrm_delivered := true; sa_restart := true;
     pthread_create_ret := fun _ => 0; schedule := [] |}.

(** The same where [signal] has the System V semantics: the alarm makes
    [accept] fail. *)
Definition env_interrupted : env :=
  {| socket_ret := 3; setsockopt_ret := 0; bind_ret := 0; listen_ret := 0;
     accept_ret := -1; sigalrm_delivered := true; sa_restart := false;
     pthread_create_ret := fun _ => 0; schedule := [] |}.

(** The producer connects, and the first [pthread_create] fails. *)
Definition env_no_thread : env :=
  {| socket_ret := 3; setsockopt_ret := 0; bind_ret := 0; listen_ret := 0;
     accept_ret := 4; sigalrm_delivered := false; sa_restart := true;
     pthread_create_ret := fun _ => 11; schedule := [] |}.

(** The complete frames received, the values the status lines report,
    each oldest first, and whether some [recv] returned anything but a
    complete frame. *)
Fixpoint frames (out : list event) : list (list byte) :=
  match out with
  | [] => []
  | Recv _ n buf :: out' => if n =? 4 then frames out' ++ [buf] else frames out'
  | _ :: out' => frames out'
  end.

Fixpoint printed (out : list event) : list Z :=
  match out with
  | [] => []
  | Inserted _ _ v :: out' => printed out' ++ [v]
  | _ :: out' => printed out'
  end.

Fixpoint short_recv (out : list event) : bool :=
  match out with
  | [] => false
  | Recv _ n _ :: out' => negb (n =? 4) || short_recv out'
  | _ :: out' => short_recv out'
  end.

(** The value the worker that holds the mutex has received and not yet
    stored, and the value it has stored and not yet reported. *)
Definition in_hand (pf : platform) (s : state) : list Z :=
  match array_mutex s with
  | Some t =>
      match threads s !! t with
      | Some (AtNtohl net_val) => [to_int (ntohl (host pf) net_val)]
      | Some (AtStore v) => [v]
      | _ => []
      end
  | None => []
  end.

Definition unreported (s : state) : list Z :=
  match array_mutex s with
  | Some t =>
      match threads s !! t with
      | Some (AtPrintf v) => [v]
      | _ => []
      end
  | None => []
  end.

(** A worker that has left its loop or is about to. *)
Definition leaving (p : pc) : bool :=
  match p with
  | AtPerror | AtPartial | AtUnlockBreak | Returned => true
  | _ => false
  end.

(** What holds, beyond [inv], between any two statements of any run. *)
Record order_inv (pf : platform) (s : state) : Prop := {
  ord_held : forall t, array_mutex s = Some t ->
                       exists p, threads s !! t = Some p /\ holds p = true;
  ord_arrival : map (recv_value (host pf)) (frames (output s))
                = take (Z.to_nat (data_index s)) (data_array s) ++ in_hand pf s;
  ord_printed : printed (output s) ++ unreported s
                = take (Z.to_nat (data_index s)) (data_array s);
  ord_pid : forall pid t v, In (Inserted pid t v) (output s) -> pid = getpid pf;
  ord_exit : forall t p, threads s !! t = Some p -> leaving p = true ->
               MAX_DATA <= data_index s \/ short_recv (output s) = true
}.

(** A bound on the statements the workers can still execute. *)
Definition rank (p : pc) : nat :=
  match p with
  | AtPrintf _ => 9 | AtUnlock => 8 | AtLock => 7 | AtCheck => 6 | AtRecv => 5
  | AtNtohl _ => 4 | AtStore _ => 3
  | AtPerror => 2 | AtPartial => 2 | AtUnlockBreak => 1 | Returned => 0
  end%nat.

Definition measure (s : state) : nat :=
  (7 * Z.to_nat (MAX_DATA - data_index s) + list_sum (map rank (threads s)))%nat.

(** The number of statements a schedule makes the workers execute. *)
Fixpoint moves (pf : platform) (sched : list (nat * (Z * list byte))) (s : state) : nat :=
  match sched with
  | [] => 0
  | (t, r) :: sched' =>
      match thread_step pf t r s with
      | Some s' => S (moves pf sched' s')
      | None => moves pf sched' s
      end
  end.

End Consumer.

(* ===================================================================== *)
(** ** producer.c *)
(* ===================================================================== *)

Module Producer.
Import Wire Sys.

Definition NUM_THREADS : nat := 2.
Definition PORT : Z := 12345.
Definition MAX_DATA : Z := 100.
Definition MAX_RETRIES : Z := 50.

(** The input file from the read position on: the next thing in it is a
    decimal integer that fits an [int], a sign ([+] or [-]) that no digit
    follows, or other text that [%d] does not match. *)
Inductive item : Type := Int (value : Z) | Sign | Junk.

Definition EOF : Z := -1.

(** [fscanf (input_file, "%d", &value)]: the return value, the integer
    assigned to [value] if there is one, and the file afterwards.  An
    integer is consumed and assigned.  A sign that no digit follows is
    consumed before the conversion fails: it begins a matching sequence,
    and only the character after it stays unread.  Other text that does
    not match is left in the file. *)
Definition fscanf_d (f : list item) : Z * option Z * list item :=
  match f with
  | [] => (EOF, None, [])
  | Int v :: f' => (1, Some v, f')
  | Sign :: f' => (0, None, f')
  | Junk :: _ => (0, None, f)
  end.

(** Where a worker is in [producer_thread_func]. *)
Inductive pc : Type :=
| AtLock                    (* 44  pthread_mutex_lock *)
| AtCheck                   (* 47  if (numbers_read >= MAX_DATA) *)
| AtFscanf                  (* 53  fscanf *)
| AtIncr (value : Z)        (* 57  numbers_read++ *)
| AtPrintf (value : Z)      (* 58  printf *)
| AtUnlock (value : Z)      (* 61  pthread_mutex_unlock *)
| AtSend (value : Z)        (* 63-67  htonl, send, test of sent_bytes *)
| AtPerror                  (* 68  perror; break *)
| AtUnlockBreak             (* 48, 54  pthread_mutex_unlock; break *)
| Returned.                 (* 73  return NULL *)

Inductive event : Type :=
| Fscanf (tid : nat) (ret : Z) (value : option Z)
| Read (pid : Z) (tid : nat) (value : Z)
| Send (tid : nat) (value : Z) (buf : list byte) (ret : Z)
| Send_failed (tid : nat) (msg : string).

(** What the connection does with one [send]: it returns [n], or the peer
    has closed and the kernel raises SIGPIPE. *)
Inductive send_result : Type := Returns (n : Z) | Broken_pipe.

Definition send_ok (n : Z) : bool := (-1 <=? n) && (n <=? 4).

(** The globals of producer.c, the workers, the disposition of SIGPIPE,
    whether SIGPIPE has terminated the process, and the events so far,
    latest first. *)
Record state : Type := mkState {
  input_file : list item;
  numbers_read : Z;
  file_mutex : option nat;
  threads : list pc;
  sigpipe : handler;
  killed : bool;
  output : list event
}.

Definition set_pc (t : nat) (p : pc) (s : state) : state :=
  mkState (input_file s) (numbers_read s) (file_mutex s)
          (<[t := p]> (threads s)) (sigpipe s) (killed s) (output s).

Definition set_mutex (m : option nat) (s : state) : state :=
  mkState (input_file s) (numbers_read s) m (threads s) (sigpipe s) (killed s) (output s).

Definition set_file (f : list item) (s : state) : state :=
  mkState f (numbers_read s) (file_mutex s) (threads s) (sigpipe s) (killed s) (output s).

Definition incr (s : state) : state :=
  mkState (input_file s) (to_int (numbers_read s + 1)) (file_mutex s) (threads s)
          (sigpipe s) (killed s) (output s).

Definition kill (s : state) : state :=
  mkState (input_file s) (numbers_read s) (file_mutex s) (threads s)
          (sigpipe s) true (output s).

Definition log (e : event) (s : state) : state :=
  mkState (input_file s) (numbers_read s) (file_mutex s) (threads s)
          (sigpipe s) (killed s) (e :: output s).

(** Lines 63-70 once [send] has returned [n]. *)
Definition after_send (pf : platform) (t : nat) (value n : Z) (s : state) : state :=
  set_pc t (if negb (n =? 4) then AtPerror else AtLock)
         (log (Send t value (send_frame (host pf) value) n) s).

(** One statement of worker [t].  [r] is what the connection does if the
    worker is at line 64. *)
Definition thread_step (pf : platform) (t : nat) (r : send_result) (s : state)
  : option state :=
  if killed s then None else
  match threads s !! t with
  | None => None
  | Some AtLock =>
      match file_mutex s with
      | None => Some (set_pc t AtCheck (set_mutex (Some t) s))
      | Some _ => None
      end
  | Some AtCheck =>
      Some (set_pc t (if MAX_DATA <=? numbers_read s then AtUnlockBreak else AtFscanf) s)
  | Some AtFscanf =>
      match fscanf_d (input_file s) with
      | (ret, Some value, f') =>
          Some (set_pc t (AtIncr value) (log (Fscanf t ret (Some value)) (set_file f' s)))
      | (ret, None, f') =>
          Some (set_pc t AtUnlockBreak (log (Fscanf t ret None) (set_file f' s)))
      end
  | Some (AtIncr value) => Some (set_pc t (AtPrintf value) (incr s))
  | Some (AtPrintf value) =>
      Some (set_pc t (AtUnlock value) (log (Read (getpid pf) t value) s))
  | Some (AtUnlock value) => Some (set_pc t (AtSend value) (set_mutex None s))
  | Some (AtSend value) =>
      match r with
      | Returns n => if send_ok n then Some (after_send pf t value n s) else None
      | Broken_pipe =>
          match sigpipe s with
          | SIG_DFL => Some (kill s)
          | _ => Some (after_send pf t value (-1) s)
          end
      end
  | Some AtPerror => Some (set_pc t Returned (log (Send_failed t "send failed") s))
  | Some AtUnlockBreak => Some (set_pc t Returned (set_mutex None s))
  | Some Returned => None
  end.

Definition init (n : nat) (file : list item) (disp : handler) : state :=
  mkState file 0 None (replicate n AtLock) disp false [].

Inductive reachable (pf : platform) (n : nat) (file : list item) (disp : handler)
  : state -> Prop :=
| reach_init : reachable pf n file disp (init n file disp)
| reach_step s t r s' :
    reachable pf n file disp s -> thread_step pf t r s = Some s' ->
    reachable pf n file disp s'.

Fixpoint thread_run (pf : platform) (t : nat) (rs : list send_result) (s : state)
  : option state :=
  match rs with
  | [] => Some s
  | r :: rs' =>
      match thread_step pf t r s with
      | Some s' => thread_run pf t rs' s'
      | None => None
      end
  end.

Fixpoint run (pf : platform) (sched : list (nat * send_result)) (s : state) : state :=
  match sched with
  | [] => s
  | (t, r) :: sched' =>
      match thread_step pf t r s with
      | Some s' => run pf sched' s'
      | None => run pf sched' s
      end
  end.

Definition is_returned (p : pc) : bool :=
  match p with Returned => true | _ => false end.

Definition all_returned (s : state) : bool := forallb is_returned (threads s).

(** A worker between lines 44 and 61 holds [file_mutex]. *)
Definition holds (p : pc) : bool :=
  match p with
  | AtCheck | AtFscanf | AtIncr _ | AtPrintf _ | AtUnlock _ | AtUnlockBreak => true
  | AtLock | AtSend _ | AtPerror | Returned => false
  end.

(** The integers [fscanf] has assigned, the values handed to [send], and
    the values whose [send] returned 4, each oldest first. *)
Fixpoint scanned (out : list event) : list Z :=
  match out with
  | [] => []
  | Fscanf _ _ (Some v) :: out' => scanned out' ++ [v]
  | _ :: out' => scanned out'
  end.

Fixpoint offered (out : list event) : list Z :=
  match out with
  | [] => []
  | Send _ v _ _ :: out' => offered out' ++ [v]
  | _ :: out' => offered out'
  end.

Fixpoint sent (out : list event) : list Z :=
  match out with
  | [] => []
  | Send _ v _ n :: out' => if n =? 4 then sent out' ++ [v] else sent out'
  | _ :: out' => sent out'
  end.

Fixpoint no_send_failure (out : list event) : bool :=
  match out with
  | [] => true
  | Send _ _ _ n :: out' => (n =? 4) && no_send_failure out'
  | _ :: out' => no_send_failure out'
  end.

(** The value a worker has read and not yet handed to [send]. *)
Definition carried (p : pc) : list Z :=
  match p with
  | AtIncr v | AtPrintf v | AtUnlock v | AtSend v => [v]
  | _ => []
  end.

(** 1 while the worker that holds the mutex is between the [fscanf] and
    the increment, else 0. *)
Definition pending (s : state) : Z :=
  match file_mutex s with
  | Some t => match threads s !! t with Some (AtIncr _) => 1 | _ => 0 end
  | None => 0
  end.

(** A bound on the statements the workers can still execute. *)
Definition rank (p : pc) : nat :=
  match p with
  | AtIncr _ => 14 | AtPrintf _ => 13 | AtUnlock _ => 12 | AtSend _ => 11
  | AtLock => 10 | AtCheck => 9 | AtFscanf => 8
  | AtUnlockBreak => 2 | AtPerror => 1 | Returned => 0
  end%nat.

Definition measure (s : state) : nat :=
  (7 * length (input_file s) + list_sum (map rank (threads s)))%nat.

(** A worker past the test of line 47 that has not incremented yet. *)
Definition checked (p : pc) : bool :=
  match p with
  | AtFscanf | AtIncr _ => true
  | _ => false
  end.

(** A worker that has left its loop or is about to. *)
Definition leaving (p : pc) : bool :=
  match p with
  | AtUnlockBreak | AtPerror | Returned => true
  | _ => false
  end.

(** [fscanf] would assign nothing: end of file, or no integer next. *)
Definition exhausted (f : list item) : bool :=
  match f with
  | Int _ :: _ => false
  | _ => true
  end.

(** [fscanf] would assign nothing and leave the file where it is: end of
    file, or text next that is neither an integer nor a sign. *)
Definition stuck (f : list item) : bool :=
  match f with
  | [] | Junk :: _ => true
  | _ => false
  end.

(** The integers in a stretch of the file, the number of signs without
    digits in it, and whether it holds other text. *)
Fixpoint ints (f : list item) : list Z :=
  match f with
  | [] => []
  | Int v :: f' => v :: ints f'
  | _ :: f' => ints f'
  end.

Fixpoint signs (f : list item) : nat :=
  match f with
  | [] => 0
  | Sign :: f' => S (signs f')
  | _ :: f' => signs f'
  end.

Fixpoint has_junk (f : list item) : bool :=
  match f with
  | [] => false
  | Junk :: _ => true
  | _ :: f' => has_junk f'
  end.

(** What has been consumed of the file [src] when [f] is left of it. *)
Definition consumed (src f : list item) : list item :=
  take (length src - length f) src.

(** The number of workers that have left their loop or are about to. *)
Definition departed (l : list pc) : nat :=
  list_sum (map (fun p => if leaving p then 1%nat else 0%nat) l).

(** What holds between any two statements of any run that starts with the
    file [src]. *)
Record inv (src : list item) (s : state) : Prop := {
  inv_count : 0 <= numbers_read s <= MAX_DATA;
  inv_owner : forall t p, threads s !! t = Some p -> holds p = true ->
                          file_mutex s = Some t;
  inv_held : forall t, file_mutex s = Some t ->
                       exists p, threads s !! t = Some p /\ holds p = true;
  inv_room : forall t p, threads s !! t = Some p -> checked p = true ->
                         numbers_read s < MAX_DATA;
  inv_source : consumed src (input_file s) ++ input_file s = src;
  inv_scanned : ints (consumed src (input_file s)) = scanned (output s);
  inv_clean : has_junk (consumed src (input_file s)) = false;
  inv_pending : numbers_read s + pending s = Z.of_nat (length (scanned (output s)));
  inv_offered : offered (output s) ++ (threads s ≫= carried) ≡ₚ scanned (output s);
  inv_signs : (signs (consumed src (input_file s)) <= departed (threads s))%nat;
  inv_exit : departed (threads s) = signs (consumed src (input_file s))
             \/ MAX_DATA <= numbers_read s \/ stuck (input_file s) = true
             \/ no_send_failure (output s) = false
}.

(** The answers of the operating system to [main]. *)
Record env : Type := {
  argv : list string;
  fork_ret : Z;
  execl_fails : bool;
  fopen_ret : option (list item);
  socket_ret : nat -> Z;
  connect_ret : nat -> Z;
  connect_errno : nat -> errno;
  pthread_create_ret : nat -> Z;
  schedule : list (nat * send_result)
}.

(** The common tail of the fatal paths of the connect loop. *)
Definition fatal {A : Type} (pid : Z) : M A :=
  emit (Kill pid SIGTERM);; emit (Waitpid pid);; emit Fclose;; exit EXIT_FAILURE.

(** producer.c:125-164.  [attempt] counts the iterations, to ask the
    environment for the outcome of each; [fuel] bounds them. *)
Fixpoint connect_loop (e : env) (pid : Z) (fuel attempt : nat) (retries : Z) : M Z :=
  match fuel with
  | O => spin
  | S fuel' =>
      socket_fd ← syscall (Socket (socket_ret e attempt)) (socket_ret e attempt);
      if socket_fd <? 0 then
        emit (Perror "socket creation failed");; fatal pid
      else
        r ← syscall (Connect socket_fd) (connect_ret e attempt);
        if r =? 0 then mret socket_fd
        else
          emit (Close socket_fd);;
          match connect_errno e attempt with
          | ECONNREFUSED | ENETUNREACH =>
              emit (Usleep 100000);;
              let retries := to_int (retries + 1) in
              if MAX_RETRIES <? retries then
                emit (Fprintf_stderr "Failed to connect after 50 retries");;
                fatal pid
              else connect_loop e pid fuel' (S attempt) retries
          | Errno _ =>
              emit (Perror "connect");; fatal pid
          end
  end.

(** Enough fuel for every run of the loop. *)
Definition connect_fuel : nat := S (Z.to_nat MAX_RETRIES).

Record handles : Type := {
  created : nat;
  socket_fd : Z;
  child : Z;
  file : list item
}.

(** producer.c:77-176 *)
Definition setup (e : env) : M handles :=
  emit (Signal SIGPIPE SIG_IGN);;
  let filename := match argv e with _ :: a :: _ => a | _ => "numbers.txt"%string end in
  pid ← syscall Fork (fork_ret e);
  (if pid <? 0 then
     emit (Perror "fork failed");; exit EXIT_FAILURE
   else if pid =? 0 then
     emit (Execl "./consumer");;
     (if execl_fails e then emit (Perror "execl failed");; exit EXIT_FAILURE
      else exec "./consumer")
   else mret tt);;
  emit (Fopen filename);;
  match fopen_ret e with
  | None =>
      emit (Perror "fopen numbers.txt");;
      emit (Kill pid SIGTERM);;
      emit (Waitpid pid);;
      exit EXIT_FAILURE
  | Some f =>
      fd ← connect_loop e pid connect_fuel 0 0;
      n ← create_loop (pthread_create_ret e) NUM_THREADS 0 0;
      mret {| created := n; socket_fd := fd; child := pid; file := f |}
  end.

(** producer.c:178-189 *)
Definition teardown (h : handles) : M unit :=
  join_loop (created h) 0;;
  emit (Close (socket_fd h));;
  emit Fclose;;
  emit Pthread_mutex_destroy;;
  emit (Waitpid (child h));;
  exit 0.

Record result : Type := {
  exit_status : status;
  globals : state;
  calls : list call
}.

Definition main (pf : platform) (e : env) : result :=
  match setup e [] with
  | (Done h, tr) =>
      let s := run pf (schedule e) (init (created h) (file h) (disposition SIGPIPE tr SIG_DFL)) in
      if killed s then {| exit_status := Signaled SIGPIPE; globals := s; calls := tr |}
      else if all_returned s then
        match teardown h tr with
        | (Exit code, tr') => {| exit_status := Exited code; globals := s; calls := tr' |}
        | (_, tr') => {| exit_status := Diverged; globals := s; calls := tr' |}
        end
      else {| exit_status := Joining; globals := s; calls := tr |}
  | (Exit code, tr) =>
      {| exit_status := Exited code; globals := init 0 [] SIG_DFL; calls := tr |}
  | (Exec path, tr) =>
      {| exit_status := Replaced path; globals := init 0 [] SIG_DFL; calls := tr |}
  | (Spin, tr) =>
      {| exit_status := Diverged; globals := init 0 [] SIG_DFL; calls := tr |}
  end.

(** The errors after which the connect loop tries again. *)
Definition refused (x : errno) : bool :=
  match x with
  | ECONNREFUSED | ENETUNREACH => true
  | Errno _ => false
  end.

(** Attempt [k] fails with an error the loop retries on. *)
Definition refused_at (e : env) (k : nat) : Prop :=
  0 <= socket_ret e k /\ connect_ret e k <> 0 /\ refused (connect_errno e k) = true.

(** The calls of one failed attempt that is followed by another. *)
Definition retry_block (e : env) (k : nat) : list call :=
  [Socket (socket_ret e k); Connect (socket_ret e k); Close (socket_ret e k);
   Usleep 100000].

Definition retry_blocks (e : env) (k : nat) : list call :=
  concat (map (retry_block e) (seq 0 k)).

Definition is_connect (c : call) : bool :=
  match c with Connect _ => true | _ => false end.

(** The number of [connect] calls in a trace. *)
Definition attempts (tr : list call) : nat := length (List.filter is_connect tr).

(** The connect loop ends in [exit (EXIT_FAILURE)], read off the answers of
    the environment: within [budget] attempts from attempt [k] on, [socket]
    fails, or [connect] fails with an error that is not retried, or every
    attempt is refused. *)
Fixpoint connect_fails (e : env) (budget k : nat) : bool :=
  match budget with
  | O => true
  | S b =>
      (socket_ret e k <? 0)
      || (negb (connect_ret e k =? 0)
          && (negb (refused (connect_errno e k)) || connect_fails e b (S k)))
  end.

(** The setup errors after which [main] leaves through
    [exit (EXIT_FAILURE)]. *)
Definition setup_fails (e : env) : bool :=
  (fork_ret e <? 0)
  || (if fork_ret e =? 0 then execl_fails e
      else match fopen_ret e with
           | None => true
           | Some _ => connect_fails e connect_fuel 0
           end).

(** Inputs to run the definitions on. *)
Definition pf0 : platform := {| host := LittleEndian; getpid := 4241 |}.

(** Round robin over two workers, every [send] complete. *)
Definition round_robin (n : nat) : list (nat * send_result) :=
  concat (replicate n [(0%nat, Returns 4); (1%nat, Returns 4)]).

(** The consumer is never there. *)
Definition env_refused : env :=
  {| argv := []; fork_ret := 77; execl_fails := false;
     fopen_ret := Some [Int 3; Int (-1); Int 42; Int 0; Int 7];
     socket_ret := fun _ => 3; connect_ret := fun _ => -1;
     connect_errno := fun _ => ECONNREFUSED;
     pthread_create_ret := fun _ => 0; schedule := [] |}.

(** The consumer listens at the third attempt and all goes well. *)
Definition env_good : env :=
  {| argv := []; fork_ret := 77; execl_fails := false;
     fopen_ret := Some [Int 3; Int (-1); Int 42; Int 0; Int 7];
     socket_ret := fun k => 3 + Z.of_nat k;
     connect_ret := fun k => if (k <? 2)%nat then -1 else 0;
     connect_errno := fun _ => ECONNREFUSED;
     pthread_create_ret := fun _ => 0; schedule := round_robin 40 |}.

(** The connection is there at once, and the first [pthread_create]
    fails. *)
Definition env_no_thread : env :=
  {| argv := []; fork_ret := 77; execl_fails := false;
     fopen_ret := Some [Int 3; Int (-1); Int 42; Int 0; Int 7];
     socket_ret := fun _ => 3; connect_ret := fun _ => 0;
     connect_errno := fun _ => ECONNREFUSED;
     pthread_create_ret := fun _ => 11; schedule := [] |}.

(** The integers at the head of the file, up to the first thing that is
    not one. *)
Fixpoint leading (f : list item) : list Z :=
  match f with
  | Int v :: f' => v :: leading f'
  | _ => []
  end.

(** The number of statements a schedule makes the workers execute. *)
Fixpoint moves (pf : platform) (sched : list (nat * send_result)) (s : state) : nat :=
  match sched with
  | [] => 0
  | (t, r) :: sched' =>
      match thread_step pf t r s with
      | Some s' => S (moves pf sched' s')
      | None => moves pf sched' s
      end
  end.

End Producer.

(* ===================================================================== *)
(** ** The connection between the two programs *)
(* ===================================================================== *)

Module Link.
Import Wire Sys.

(** The connection is one TCP stream from the producer to the consumer:
    what [recv] returns is the next bytes of what [send] has transferred, in
    the order of the [send] calls.  [transmitted]: the bytes the producer
    has put on the connection; a [send] that returns [n > 0] has
    transferred the first [n] bytes of its buffer.  [received]: the bytes
    the consumer has taken off it.  Both oldest first. *)
Fixpoint transmitted (out : list Producer.event) : list byte :=
  match out with
  | [] => []
  | Producer.Send _ _ buf n :: out' => transmitted out' ++ take (Z.to_nat n) buf
  | _ :: out' => transmitted out'
  end.

Fixpoint received (out : list Consumer.event) : list byte :=
  match out with
  | [] => []
  | Consumer.Recv _ _ buf :: out' => received out' ++ buf
  | _ :: out' => received out'
  end.

(** The two pools of workers, each with its globals. *)
Record state : Type := {
  producer : Producer.state;
  consumer : Consumer.state
}.

(** The bytes on the connection that no [recv] has returned yet. *)
Definition in_flight (s : state) : list byte :=
  drop (length (received (Consumer.output (consumer s))))
       (transmitted (Producer.output (producer s))).

(** Who moves next: a producer worker, with what the connection does with
    its [send] if it is at line 64 of producer.c; or a consumer worker,
    with the value its [recv] returns if it is at line 61 of consumer.c. *)
Inductive label : Type :=
| Produce (t : nat) (r : Producer.send_result)
| Consume (t : nat) (n : Z).

(** One statement of one worker of either program.  A [recv] that returns
    [n > 0] hands over the next [n] bytes in flight, which must be there. *)
Definition step (pfp pfc : platform) (l : label) (s : state) : option state :=
  match l with
  | Produce t r =>
      match Producer.thread_step pfp t r (producer s) with
      | Some sp => Some {| producer := sp; consumer := consumer s |}
      | None => None
      end
  | Consume t n =>
      if n <=? Z.of_nat (length (in_flight s)) then
        match Consumer.thread_step pfc t (n, take (Z.to_nat n) (in_flight s))
                                   (consumer s) with
        | Some sc => Some {| producer := producer s; consumer := sc |}
        | None => None
        end
      else None
  end.

Definition init (np nc : nat) (file : list Producer.item) (disp : handler) : state :=
  {| producer := Producer.init np file disp; consumer := Consumer.init nc |}.

Inductive reachable (pfp pfc : platform) (np nc : nat) (file : list Producer.item)
  (disp : handler) : state -> Prop :=
| reach_init : reachable pfp pfc np nc file disp (init np nc file disp)
| reach_step s l s' :
    reachable pfp pfc np nc file disp s -> step pfp pfc l s = Some s' ->
    reachable pfp pfc np nc file disp s'.

(** A schedule of both programs; a worker that cannot move is passed
    over. *)
Fixpoint run (pfp pfc : platform) (sched : list label) (s : state) : state :=
  match sched with
  | [] => s
  | l :: sched' =>
      match step pfp pfc l s with
      | Some s' => run pfp pfc sched' s'
      | None => run pfp pfc sched' s
      end
  end.

(** Every [send] so far has transferred its whole frame or nothing, and
    every [recv] so far has returned a whole frame or nothing. *)
Fixpoint whole_sends (out : list Producer.event) : bool :=
  match out with
  | [] => true
  | Producer.Send _ _ _ n :: out' => ((n =? 4) || (n <=? 0)) && whole_sends out'
  | _ :: out' => whole_sends out'
  end.

Fixpoint whole_recvs (out : list Consumer.event) : bool :=
  match out with
  | [] => true
  | Consumer.Recv _ n _ :: out' => ((n =? 4) || (n <=? 0)) && whole_recvs out'
  | _ :: out' => whole_recvs out'
  end.

(** A run to try the definitions on.  The file holds 258 and -1.  The
    [send] of worker 0 for 258 transfers 2 of its 4 bytes; the [send] of
    worker 1 for -1 is complete; then consumer worker 0 receives 4 bytes
    and stores what it makes of them. *)
Definition torn_file : list Producer.item := [Producer.Int 258; Producer.Int (-1)].

Definition torn_sched : list label :=
  replicate 6 (Produce 0 (Producer.Returns 4)) ++ [Produce 0 (Producer.Returns 2)]
  ++ replicate 7 (Produce 1 (Producer.Returns 4))
  ++ [Consume 0 0; Consume 0 0; Consume 0 4; Consume 0 0; Consume 0 0].

Definition torn : state :=
  run Producer.pf0 Consumer.pf0 torn_sched (init 2 2 torn_file SIG_IGN).

End Link.

(* ===================================================================== *)
(** ** Facts about the wire format *)
(* ===================================================================== *)

Section WireFacts.
Import Wire.

Lemma lor_shiftl_add hi lo n :
  0 <= n -> 0 <= lo < 2 ^ n -> Z.lor (Z.shiftl hi n) lo = hi * 2 ^ n + lo.
Proof.
  intros Hn Hlo. rewrite Z.shiftl_mul_pow2 by lia.
  symmetry. apply Z.add_nocarry_lor.
  rewrite <- (Z.mod_small lo (2 ^ n)) by lia.
  rewrite <- Z.shiftl_mul_pow2 by lia.
  apply Z.bits_inj'; intros i Hi.
  rewrite Z.land_spec, Z.bits_0, Z.shiftl_spec by lia.
  destruct (Z.lt_ge_cases i n).
  - by rewrite Z.testbit_neg_r by lia.
  - rewrite Z.mod_pow2_bits_high by lia. apply andb_false_r.
Qed.

Lemma lor_add_disjoint n hi lo :
  0 <= n -> 0 <= lo < 2 ^ n -> hi mod 2 ^ n = 0 -> Z.lor hi lo = hi + lo.
Proof.
  intros Hn Hlo Hhi.
  rewrite (Z.div_mod hi (2 ^ n)) at 1 by lia.
  rewrite Hhi, Z.add_0_r, Z.mul_comm.
  rewrite <- Z.shiftl_mul_pow2, lor_shiftl_add, <- Z.shiftl_mul_pow2 by lia.
  rewrite (Z.div_mod hi (2 ^ n)) at 2 by lia.
  rewrite Hhi, Z.add_0_r, Z.mul_comm.
  by rewrite Z.shiftl_mul_pow2 by lia.
Qed.

Lemma land_255 x : Z.land x 255 = x mod 2 ^ 8.
Proof. change 255 with (Z.ones 8). by rewrite Z.land_ones. Qed.

Lemma land_65280 x : Z.land x 65280 = (Z.shiftr x 8 mod 2 ^ 8) * 2 ^ 8.
Proof.
  change 65280 with (Z.shiftl (Z.ones 8) 8).
  rewrite <- Z.shiftl_mul_pow2, <- Z.land_ones by lia.
  apply Z.bits_inj'; intros i Hi.
  rewrite Z.land_spec, !Z.shiftl_spec, Z.land_spec by lia.
  destruct (Z.lt_ge_cases i 8).
  - rewrite !(Z.testbit_neg_r _ (i - 8)) by lia. apply andb_false_r.
  - rewrite Z.shiftr_spec by lia. by replace (i - 8 + 8) with i by lia.
Qed.

(** The byte swap in terms of the four bytes of its argument. *)
Lemma bswap_32_arith x :
  bswap_32 x = (x mod 2 ^ 8) * 2 ^ 24 + ((x / 2 ^ 8) mod 2 ^ 8) * 2 ^ 16
               + ((x / 2 ^ 16) mod 2 ^ 8) * 2 ^ 8 + (x / 2 ^ 24) mod 2 ^ 8.
Proof.
  unfold bswap_32.
  rewrite !land_255, !land_65280, Z.shiftr_shiftr, !Z.shiftr_div_pow2 by lia.
  rewrite !Z.shiftl_mul_pow2 by lia. change (8 + 8) with 16.
  pose proof (Z.mod_pos_bound x (2 ^ 8) eq_refl) as Ha.
  pose proof (Z.mod_pos_bound (x / 2 ^ 8) (2 ^ 8) eq_refl) as Hb.
  pose proof (Z.mod_pos_bound (x / 2 ^ 16) (2 ^ 8) eq_refl) as Hc.
  pose proof (Z.mod_pos_bound (x / 2 ^ 24) (2 ^ 8) eq_refl) as Hd.
  set (a := x mod 2 ^ 8) in *. set (b := (x / 2 ^ 8) mod 2 ^ 8) in *.
  set (c := (x / 2 ^ 16) mod 2 ^ 8) in *. set (d := (x / 2 ^ 24) mod 2 ^ 8) in *.
  rewrite (lor_add_disjoint 24 (a * 2 ^ 24) (b * 2 ^ 8 * 2 ^ 8)),
    (lor_add_disjoint 8 (c * 2 ^ 8) d);
    [|lia|lia|apply Z.mod_mul; lia|lia|lia|apply Z.mod_mul; lia].
  rewrite (lor_add_disjoint 16); [lia|lia|lia|].
  replace (a * 2 ^ 24 + b * 2 ^ 8 * 2 ^ 8) with ((a * 2 ^ 8 + b) * 2 ^ 16) by lia.
  apply Z.mod_mul; lia.
Qed.

Lemma byte_of_Z_eq a b : a mod 2 ^ 8 = b mod 2 ^ 8 -> byte.of_Z a = byte.of_Z b.
Proof.
  intros H. apply byte.unsigned_inj. rewrite !byte.unsigned_of_Z. exact H.
Qed.

Lemma bswap_32_bytes x : be_bytes (bswap_32 x) = rev (be_bytes x).
Proof.
  unfold be_bytes; cbn [rev app].
  repeat (apply (f_equal2 cons);
    [apply byte_of_Z_eq; rewrite bswap_32_arith, ?Z.shiftr_div_pow2 by lia;
     Z.div_mod_to_equations; lia|]).
  reflexivity.
Qed.

Lemma be_combine_4 b0 b1 b2 b3 :
  be_combine 0 [b0; b1; b2; b3] =
  byte.unsigned b0 * 2 ^ 24 + byte.unsigned b1 * 2 ^ 16
  + byte.unsigned b2 * 2 ^ 8 + byte.unsigned b3.
Proof.
  cbn [be_combine]. rewrite Z.shiftl_0_l, Z.lor_0_l.
  pose proof (byte.unsigned_range b0). pose proof (byte.unsigned_range b1).
  pose proof (byte.unsigned_range b2). pose proof (byte.unsigned_range b3).
  rewrite !lor_shiftl_add by lia. lia.
Qed.

Lemma bswap_32_combine b0 b1 b2 b3 :
  bswap_32 (be_combine 0 [b3; b2; b1; b0]) = be_combine 0 [b0; b1; b2; b3].
Proof.
  rewrite !be_combine_4, bswap_32_arith.
  pose proof (byte.unsigned_range b0). pose proof (byte.unsigned_range b1).
  pose proof (byte.unsigned_range b2). pose proof (byte.unsigned_range b3).
  Z.div_mod_to_equations; lia.
Qed.

Lemma be_combine_bytes x : be_combine 0 (be_bytes x) = to_uint32 x.
Proof.
  unfold be_bytes, to_uint32.
  rewrite be_combine_4, !byte.unsigned_of_Z. unfold byte.wrap.
  rewrite !Z.shiftr_div_pow2 by lia.
  Z.div_mod_to_equations; lia.
Qed.

(** Whatever the host, the frame on the wire is big-endian. *)
Lemma send_frame_big_endian host value :
  send_frame host value = be_bytes (to_uint32 value).
Proof.
  unfold send_frame, object_bytes, htonl. destruct host; [|reflexivity].
  rewrite bswap_32_bytes. apply rev_involutive.
Qed.

Lemma recv_value_big_endian host b0 b1 b2 b3 :
  recv_value host [b0; b1; b2; b3] = to_int (be_combine 0 [b0; b1; b2; b3]).
Proof.
  unfold recv_value, object_value, ntohl. destruct host; [|reflexivity].
  cbn [rev app]. by rewrite bswap_32_combine.
Qed.

Lemma to_int_to_uint32 v : int_range v -> to_int (to_uint32 v) = v.
Proof.
  unfold int_range, to_int, to_uint32. intros H.
  Z.div_mod_to_equations. lia.
Qed.

Lemma to_int_small z : - 2 ^ 31 <= z < 2 ^ 31 -> to_int z = z.
Proof. unfold to_int. intros H. Z.div_mod_to_equations. lia. Qed.

Lemma recv_send_frame h1 h2 v : int_range v -> recv_value h2 (send_frame h1 v) = v.
Proof.
  intros H. rewrite send_frame_big_endian. unfold be_bytes.
  rewrite recv_value_big_endian. fold (be_bytes (to_uint32 v)).
  rewrite be_combine_bytes. unfold to_uint32. rewrite Z.mod_mod by lia.
  by apply to_int_to_uint32.
Qed.

End WireFacts.

(** Lists of program counters updated in place. *)
Lemma lookup_insert_cases {A : Type} (l : list A) (t t' : nat) (x y : A) :
  <[t := x]> l !! t' = Some y ->
  (t' = t /\ y = x) \/ (t' <> t /\ l !! t' = Some y).
Proof.
  intros H. destruct (decide (t' = t)) as [->|Hne].
  - left. split; [done|].
    destruct (decide (t < length l)%nat) as [Hlt|Hge].
    + rewrite list_lookup_insert_eq in H by done. congruence.
    + rewrite list_insert_ge in H by lia.
      apply lookup_lt_Some in H. lia.
  - right. split; [done|]. by rewrite list_lookup_insert_ne in H.
Qed.

Lemma lookup_replicate_pc {A : Type} (n t : nat) (x y : A) :
  replicate n x !! t = Some y -> y = x.
Proof. intros H. apply lookup_replicate in H. tauto. Qed.

Ltac split_pc :=
  repeat match goal with
  | H : <[_ := _]> _ !! _ = Some _ |- _ =>
      apply lookup_insert_cases in H as [[-> ?]|[? H]]; simplify_eq
  end.

(** Running the monad of [main]. *)
Ltac unfold_M :=
  repeat progress
    (unfold mbind, Sys.M_bind, mret, Sys.M_ret, Sys.syscall, Sys.emit, Sys.exit,
       Sys.exec, Sys.spin, Consumer.accept; cbn).


(* ===================================================================== *)
(** ** Facts about the consumer workers *)
(* ===================================================================== *)

Section ConsumerFacts.
Import Wire Sys Consumer.

Lemma consumer_inv_init pf n : inv pf (init n).
Proof.
  constructor; cbn.
  - unfold MAX_DATA. lia.
  - apply length_replicate.
  - done.
  - intros t p H. apply lookup_replicate_pc in H. by subst.
  - intros t p H. apply lookup_replicate_pc in H. by subst.
  - intros t nv H. by apply lookup_replicate_pc in H.
  - intros t v H. by apply lookup_replicate_pc in H.
  - intros k v H. lia.
Qed.

Lemma decoded_log pf e s v : decoded pf s v -> decoded pf (log e s) v.
Proof. intros (t & buf & Hin & Hlen & ->). exists t, buf. cbn. auto. Qed.

Lemma decoded_ext pf s s' v : output s' = output s -> decoded pf s v -> decoded pf s' v.
Proof. intros Ho (t & buf & Hin & Hlen & ->). exists t, buf. rewrite Ho. auto. Qed.

Lemma framed_log pf e s v : framed pf s v -> framed pf (log e s) v.
Proof. intros (t & buf & Hin & Hlen & ->). exists t, buf. cbn. auto. Qed.

Lemma framed_ext pf s s' v : output s' = output s -> framed pf s v -> framed pf s' v.
Proof. intros Ho (t & buf & Hin & Hlen & ->). exists t, buf. rewrite Ho. auto. Qed.

Lemma framed_decoded pf s s' net_val :
  output s' = output s -> framed pf s net_val ->
  decoded pf s' (to_int (ntohl (host pf) net_val)).
Proof.
  intros Ho (t & buf & Hin & Hlen & ->). exists t, buf. rewrite Ho. auto.
Qed.

Lemma store_in_range v s :
  0 <= data_index s < MAX_DATA ->
  store v s = mkState (<[Z.to_nat (data_index s) := v]> (data_array s))
                      (data_index s + 1) (array_mutex s) (threads s) (output s)
                      (out_of_bounds s).
Proof.
  intros H. unfold store.
  destruct (Z.leb_spec 0 (data_index s)); [|lia].
  destruct (Z.ltb_spec (data_index s) MAX_DATA); [|lia]. cbn.
  rewrite to_int_small; [done|]. unfold MAX_DATA in *. lia.
Qed.

Lemma recv_ok_4 n buf : recv_ok n buf = true -> n = 4 -> length buf = 4%nat.
Proof. unfold recv_ok. intros H ->. cbn in H. lia. Qed.

(** The facts about the frames received survive a step that only adds to
    the output or leaves it alone. *)
Ltac keep_frames :=
  first [ by eauto
        | by (apply decoded_log; eauto)
        | by (apply framed_log; eauto)
        | by (eapply decoded_ext; [|eauto]; done)
        | by (eapply framed_ext; [|eauto]; done) ].

(** Two workers that hold the mutex are the same worker. *)
Lemma consumer_exclusive pf s t1 t2 p1 p2 :
  inv pf s -> threads s !! t1 = Some p1 -> threads s !! t2 = Some p2 ->
  holds p1 = true -> holds p2 = true -> t1 = t2.
Proof.
  intros I H1 H2 Hh1 Hh2.
  pose proof (inv_owner _ _ I _ _ H1 Hh1) as E1.
  pose proof (inv_owner _ _ I _ _ H2 Hh2) as E2. congruence.
Qed.

Lemma consumer_inv_step pf t r s s' :
  inv pf s -> thread_step pf t r s = Some s' -> inv pf s'.
Proof.
  intros I Hstep. pose proof I as [Hi Hl Hb Ho Hr Hn Hv Hs].
  unfold thread_step in Hstep.
  destruct (threads s !! t) as [p|] eqn:Hp; [|done].
  assert (Hex : forall t' p', t' <> t -> threads s !! t' = Some p' ->
                holds p = true -> holds p' = true -> False).
  { intros t' p' Hne Hp' Hh Hh'. apply Hne.
    eapply (consumer_exclusive pf s t' t); eauto. }
  assert (Hme : holds p = true -> array_mutex s = Some t) by eauto.
  assert (Hroom : checked p = true -> data_index s < MAX_DATA) by eauto.
  destruct p.
  - (* pthread_mutex_lock *)
    destruct (array_mutex s) as [o|] eqn:Hm; simplify_eq.
    constructor; cbn; try done; intros; split_pc; try keep_frames.
    exfalso. by pose proof (Ho _ _ H H0).
  - (* the test of line 54 *)
    simplify_eq. destruct (Z.leb_spec MAX_DATA (data_index s));
      constructor; cbn; try done; intros; split_pc; try keep_frames.
  - (* recv *)
    destruct (recv_ok r.1 r.2) eqn:Hok; simplify_eq.
    destruct (r.1 =? 0) eqn:E0; [|destruct (r.1 <? 0) eqn:E1;
      [|destruct (r.1 =? 4) eqn:E4]]; cbn [negb];
      constructor; cbn; try done; intros; split_pc; try keep_frames.
    exists t, r.2. apply Z.eqb_eq in E4. rewrite E4.
    split; [by left|]. split; [|done]. eapply recv_ok_4; eauto.
  - (* perror *)
    simplify_eq. constructor; cbn; try done; intros; split_pc; try keep_frames.
  - (* fprintf *)
    simplify_eq. constructor; cbn; try done; intros; split_pc; try keep_frames.
  - (* ntohl *)
    simplify_eq. constructor; cbn; try done; intros; split_pc; try keep_frames.
    eapply framed_decoded; [|eauto]; done.
  - (* the store *)
    simplify_eq.
    assert (Hrange : 0 <= data_index s < MAX_DATA) by (split; [lia|by apply Hroom]).
    rewrite store_in_range by done.
    constructor; cbn; try done.
    + lia.
    + by rewrite length_insert.
    + intros; split_pc; eauto.
    + intros; split_pc; try done.
      exfalso. eapply (Hex t0 p); eauto. by destruct p.
    + intros; split_pc. keep_frames.
    + intros; split_pc. keep_frames.
    + intros k v Hk Hlook.
      destruct (decide (k = Z.to_nat (data_index s))) as [->|Hne].
      * rewrite list_lookup_insert_eq in Hlook by (rewrite Hl; unfold MAX_DATA in *; lia).
        simplify_eq. keep_frames.
      * rewrite list_lookup_insert_ne in Hlook by done.
        eapply decoded_ext; [|eapply (Hs k); eauto; lia]; done.
  - (* printf *)
    simplify_eq. constructor; cbn; try done; intros; split_pc; try keep_frames.
  - (* pthread_mutex_unlock *)
    simplify_eq. constructor; cbn; try done; intros; split_pc; try keep_frames.
    exfalso. eapply (Hex t0 p); eauto.
  - (* pthread_mutex_unlock; break *)
    simplify_eq. constructor; cbn; try done; intros; split_pc; try keep_frames.
    exfalso. eapply (Hex t0 p); eauto.
  - done.
Qed.

Lemma consumer_inv_reachable pf n s : reachable pf n s -> inv pf s.
Proof.
  induction 1 as [|s t r s' _ IH Hstep].
  - apply consumer_inv_init.
  - eapply consumer_inv_step; eauto.
Qed.

(** A step either leaves the buffer and its index alone or is the store of
    line 79 by a worker that passed the test of line 54. *)
Lemma consumer_step_buffer pf t r s s' :
  inv pf s -> thread_step pf t r s = Some s' ->
  (data_array s' = data_array s /\ data_index s' = data_index s)
  \/ (exists v, threads s !! t = Some (AtStore v)
                /\ 0 <= data_index s < MAX_DATA
                /\ data_array s' = <[Z.to_nat (data_index s) := v]> (data_array s)
                /\ data_index s' = data_index s + 1).
Proof.
  intros I Hstep. unfold thread_step in Hstep.
  destruct (threads s !! t) as [p|] eqn:Hp; [|done].
  destruct p; try (simplify_eq; by left).
  - destruct (array_mutex s); simplify_eq. by left.
  - destruct (recv_ok r.1 r.2); simplify_eq. by left.
  - simplify_eq. right. exists value.
    assert (Hrange : 0 <= data_index s < MAX_DATA).
    { pose proof (inv_index _ _ I). pose proof (inv_room _ _ I t _ Hp eq_refl). lia. }
    rewrite store_in_range by done. cbn. auto.
Qed.

(** A worker at line 79 makes its store: the value goes into the slot at
    the current index, which lies inside the array, and the index goes up by
    one. *)
Lemma consumer_store_step pf t r v s :
  inv pf s -> threads s !! t = Some (AtStore v) ->
  exists s', thread_step pf t r s = Some s'
    /\ 0 <= data_index s < MAX_DATA
    /\ data_array s' = <[Z.to_nat (data_index s) := v]> (data_array s)
    /\ data_array s' !! Z.to_nat (data_index s) = Some v
    /\ data_index s' = data_index s + 1
    /\ threads s' = <[t := AtPrintf v]> (threads s).
Proof.
  intros I Hp.
  assert (Hrange : 0 <= data_index s < MAX_DATA).
  { pose proof (inv_index _ _ I). pose proof (inv_room _ _ I t _ Hp eq_refl). lia. }
  exists (set_pc t (AtPrintf v) (store v s)).
  unfold thread_step. rewrite Hp. split; [done|]. split; [done|].
  rewrite store_in_range by done. cbn. split; [done|]. split; [|done].
  apply list_lookup_insert_eq. rewrite (inv_length _ _ I). unfold MAX_DATA in *. lia.
Qed.

Lemma consumer_full_stays_full pf s s' :
  inv pf s -> data_index s = MAX_DATA -> steps pf s s' ->
  data_array s' = data_array s /\ data_index s' = MAX_DATA.
Proof.
  intros I Hfull H. induction H as [|s t r s' s'' Hstep _ IH]; [done|].
  destruct (consumer_step_buffer _ _ _ _ _ I Hstep) as [[Ha Hi]|(v & _ & Hr & _)];
    [|lia].
  rewrite <- Ha. apply IH; [by eapply consumer_inv_step|congruence].
Qed.

Lemma reachable_run pf n sched s :
  reachable pf n s -> reachable pf n (run pf sched s).
Proof.
  revert s. induction sched as [|[t r] sched IH]; intros s H; cbn; [done|].
  destruct (thread_step pf t r s) eqn:E; apply IH; [|done].
  eapply reach_step; eauto.
Qed.

(** C1. The write index of the consumer's buffer stays between 0 and the
    capacity MAX_DATA = 100 in every state of every run and no store falls
    outside the array; a step that changes the buffer is the store of
    line 79; every insertion, that is the statement of a worker at line 79,
    is executed whatever the other workers do, puts the value into the slot
    at the current index and adds exactly one to the index; and from a
    state in which the index equals the capacity on, no run changes the
    buffer or the index. *)
Theorem consumer_write_index_bounded pf n s :
  reachable pf n s ->
  0 <= data_index s <= MAX_DATA
  /\ MAX_DATA = 100
  /\ out_of_bounds s = false
  /\ (forall t r s', thread_step pf t r s = Some s' ->
        (data_array s' = data_array s /\ data_index s' = data_index s)
        \/ (exists v, threads s !! t = Some (AtStore v)
                      /\ 0 <= data_index s < MAX_DATA
                      /\ data_array s' = <[Z.to_nat (data_index s) := v]> (data_array s)
                      /\ data_index s' = data_index s + 1))
  /\ (forall t v r, threads s !! t = Some (AtStore v) ->
        exists s', thread_step pf t r s = Some s'
          /\ 0 <= data_index s < MAX_DATA
          /\ data_array s' = <[Z.to_nat (data_index s) := v]> (data_array s)
          /\ data_array s' !! Z.to_nat (data_index s) = Some v
          /\ data_index s' = data_index s + 1
          /\ threads s' = <[t := AtPrintf v]> (threads s))
  /\ (data_index s = MAX_DATA -> forall s', steps pf s s' ->
        data_array s' = data_array s /\ data_index s' = MAX_DATA).
Proof.
  intros H. apply consumer_inv_reachable in H.
  split; [apply (inv_index _ _ H)|]. split; [done|].
  split; [apply (inv_bounds _ _ H)|]. split; [|split].
  - intros t r s'. by apply consumer_step_buffer.
  - intros t v r Hp. by apply consumer_store_step.
  - intros Hfull s'. by apply consumer_full_stays_full.
Qed.

Lemma consumer_write_index_bounded_witness :
  let s := run pf0 (take 4 sched0) (init 2) in
  reachable pf0 2 s /\ threads s !! 0%nat = Some (AtStore (-7))
  /\ 0 <= data_index s <= MAX_DATA
  /\ exists s', thread_step pf0 0 (0, []) s = Some s'
                /\ data_array s' !! Z.to_nat (data_index s) = Some (-7)
                /\ data_index s' = data_index s + 1.
Proof.
  intros s.
  assert (H : reachable pf0 2 s) by (apply reachable_run, reach_init).
  assert (Hp : threads s !! 0%nat = Some (AtStore (-7))) by (vm_compute; reflexivity).
  split; [exact H|]. split; [exact Hp|].
  destruct (consumer_write_index_bounded pf0 2 s H) as (Hi & _ & _ & _ & Hst & _).
  split; [exact Hi|].
  destruct (Hst 0%nat (-7) (0, []) Hp) as (s' & H1 & _ & _ & H4 & H5 & _).
  exists s'. split; [exact H1|]. split; [exact H4|exact H5].
Defined.



(** Every slot below the write index holds a decoded complete frame. *)
Lemma consumer_slots_decoded pf n s k :
  reachable pf n s -> 0 <= k < data_index s ->
  exists v, data_array s !! Z.to_nat k = Some v /\ decoded pf s v.
Proof.
  intros H Hk. apply consumer_inv_reachable in H.
  pose proof (inv_index _ _ H) as Hi. pose proof (inv_length _ _ H) as Hl.
  destruct (lookup_lt_is_Some_2 (data_array s) (Z.to_nat k)) as [v Hv].
  { rewrite Hl. lia. }
  exists v. split; [done|]. apply (inv_slots _ _ H (Z.to_nat k)); [lia|done].
Qed.

(** C9. A statement on one of the paths that end the loop after [recv]
    (a [recv] that returned anything but 4, the [perror], the report of a
    partial read, the unlock before the break) leaves the buffer and the
    write index as they were; and in every state of every run each slot
    below the write index holds the value decoded from some complete 4-byte
    frame that was received. *)
Theorem consumer_error_paths_keep_buffer pf n s :
  reachable pf n s ->
  (forall t r s' p, threads s !! t = Some p ->
     (p = AtRecv /\ r.1 <> 4) \/ abnormal p = true ->
     thread_step pf t r s = Some s' ->
     data_array s' = data_array s /\ data_index s' = data_index s)
  /\ (forall k, 0 <= k < data_index s ->
        exists v, data_array s !! Z.to_nat k = Some v /\ decoded pf s v).
Proof.
  intros H. split.
  - intros t r s' p Hp Hpath Hstep. unfold thread_step in Hstep. rewrite Hp in Hstep.
    destruct Hpath as [[-> Hr]|Hab].
    + destruct (recv_ok r.1 r.2); simplify_eq. done.
    + destruct p; try discriminate; simplify_eq; done.
  - intros k Hk. by eapply consumer_slots_decoded.
Qed.

Lemma consumer_error_paths_keep_buffer_witness :
  let s := run pf0 sched0 (init 2) in
  reachable pf0 2 s
  /\ exists v, data_array s !! Z.to_nat 0 = Some v /\ decoded pf0 s v.
Proof.
  intros s.
  assert (H : reachable pf0 2 s) by (apply reachable_run, reach_init).
  split; [exact H|].
  apply (proj2 (consumer_error_paths_keep_buffer pf0 2 s H) 0).
  vm_compute. split; [discriminate|reflexivity].
Defined.

(** C7. Nobody connects and the alarm set for 5 seconds before [accept]
    goes off.  Where [signal] has the System V semantics the alarm makes
    [accept] fail: the consumer prints its diagnostic, closes the listening
    socket and returns 0.  Where [signal] has the BSD semantics, as it has
    by default, the kernel restarts [accept] after the handler has run:
    the consumer waits in [accept] for ever, prints no diagnostic and does
    not exit.  Either way no worker is created and the buffer and its
    index are as the loader left them. *)
Theorem consumer_accept_timeout pf e :
  0 <= socket_ret e -> 0 <= setsockopt_ret e -> 0 <= bind_ret e ->
  0 <= listen_ret e -> accept_ret e < 0 -> sigalrm_delivered e = true ->
  let fd := socket_ret e in
  let waiting := [Socket fd; Setsockopt fd; Bind fd PORT; Listen fd 1;
                  Signal SIGALRM (Handler "alarm_handler"); Alarm 5; Accept fd] in
  globals (main pf e) = init 0
  /\ data_index (globals (main pf e)) = 0
  /\ output (globals (main pf e)) = []
  /\ if sa_restart e
     then exit_status (main pf e) = Diverged
          /\ calls (main pf e) = waiting
     else exit_status (main pf e) = Exited 0
          /\ calls (main pf e)
             = waiting ++ [Fprintf_stderr "No producer connected within timeout period";
                           Close fd; Pthread_mutex_destroy].
Proof.
  intros H1 H2 H3 H4 H5 H6 fd waiting. subst fd waiting.
  assert (Hi : interrupted e = true).
  { unfold interrupted. rewrite H6. by apply Z.ltb_lt in H5 as ->. }
  unfold main, setup. unfold_M.
  destruct (Z.ltb_spec (socket_ret e) 0); [lia|]; unfold_M.
  destruct (Z.ltb_spec (setsockopt_ret e) 0); [lia|]; unfold_M.
  destruct (Z.ltb_spec (bind_ret e) 0); [lia|]; unfold_M.
  destruct (Z.ltb_spec (listen_ret e) 0); [lia|]; unfold_M.
  rewrite Hi. destruct (sa_restart e); unfold_M; [done|].
  rewrite H6. destruct (Z.ltb_spec (accept_ret e) 0); [|lia]. unfold_M. done.
Qed.

Lemma consumer_accept_timeout_witness :
  0 <= socket_ret env_timeout /\ accept_ret env_timeout < 0
  /\ sa_restart env_timeout = true
  /\ exit_status (main pf0 env_timeout) = Diverged
  /\ ~ In (Fprintf_stderr "No producer connected within timeout period")
          (calls (main pf0 env_timeout)).
Proof.
  assert (H1 : 0 <= socket_ret env_timeout) by (cbn; lia).
  assert (H2 : 0 <= setsockopt_ret env_timeout) by (cbn; lia).
  assert (H3 : 0 <= bind_ret env_timeout) by (cbn; lia).
  assert (H4 : 0 <= listen_ret env_timeout) by (cbn; lia).
  assert (H5 : accept_ret env_timeout < 0) by (cbn; lia).
  assert (H6 : sigalrm_delivered env_timeout = true) by reflexivity.
  split; [exact H1|]. split; [exact H5|]. split; [reflexivity|].
  destruct (consumer_accept_timeout pf0 env_timeout H1 H2 H3 H4 H5 H6)
    as (_ & _ & _ & Hx & Hc).
  split; [exact Hx|]. rewrite Hc. intros Hin.
  repeat (destruct Hin as [Hin|Hin]; [discriminate Hin|]). exact Hin.
Defined.

End ConsumerFacts.

(* ===================================================================== *)
(** ** Facts about thread creation, joining and the exit of the consumer *)
(* ===================================================================== *)

Section ExitFacts.
Import Wire Sys.




Lemma create_loop_extends ret fuel i c tr :
  exists n ext, create_loop ret fuel i c tr = (Done n, tr ++ ext)
                /\ forallb (fun c => negb (is_signal c)) ext = true.
Proof.
  revert i c tr. induction fuel as [|fuel IH]; intros i c tr.
  - exists c, []. by rewrite app_nil_r.
  - cbn [create_loop]. unfold_M.
    destruct (ret i =? 0); cbn.
    + destruct (IH (S i) (S c) (tr ++ [Pthread_create i])) as (n & ext & -> & Hs).
      exists n, (Pthread_create i :: ext). by rewrite <- app_assoc.
    + eexists _, _. by rewrite <- app_assoc.
Qed.

Lemma join_loop_extends fuel i tr :
  exists ext, join_loop fuel i tr = (Done tt, tr ++ ext).
Proof.
  revert i tr. induction fuel as [|fuel IH]; intros i tr.
  - exists []. by rewrite app_nil_r.
  - cbn [join_loop]. unfold_M.
    destruct (IH (S i) (tr ++ [Pthread_join i])) as (ext & ->).
    exists (Pthread_join i :: ext). by rewrite <- app_assoc.
Qed.

#[local] Arguments Sys.create_loop : simpl never.
#[local] Arguments Sys.join_loop : simpl never.



End ExitFacts.

(* ===================================================================== *)
(** ** Facts about the producer workers *)
(* ===================================================================== *)

Section ProducerFacts.
Import Wire Sys Producer.

Lemma carried_insert_same (l : list pc) t p p' :
  l !! t = Some p -> carried p' = carried p ->
  <[t := p']> l ≫= carried = l ≫= carried.
Proof.
  revert t. induction l as [|x l IH]; intros [|t] H E; try done; cbn in *.
  - simplify_eq. by rewrite E.
  - by rewrite IH.
Qed.

Lemma carried_insert (l : list pc) t p p' :
  l !! t = Some p ->
  (<[t := p']> l ≫= carried) ++ carried p ≡ₚ (l ≫= carried) ++ carried p'.
Proof.
  revert t. induction l as [|x l IH]; intros [|t] H; try done; cbn in *.
  - simplify_eq. rewrite <- !app_assoc.
    rewrite (Permutation_app_comm (l ≫= carried) (carried p)).
    rewrite (Permutation_app_comm (l ≫= carried) (carried p')).
    rewrite !app_assoc. apply Permutation_app_tail, Permutation_app_comm.
  - rewrite <- !app_assoc. apply Permutation_app_head. by apply IH.
Qed.

#[local] Arguments rank : simpl never.
#[local] Arguments carried : simpl never.

Lemma rank_insert (l : list pc) t p p' :
  l !! t = Some p ->
  (list_sum (map rank (<[t := p']> l)) + rank p
   = list_sum (map rank l) + rank p')%nat.
Proof.
  revert t. induction l as [|x l IH]; intros [|t] H; try done.
  - injection H as ->. change (<[0%nat := p']> (p :: l)) with (p' :: l).
    rewrite !map_cons. unfold list_sum. cbn [fold_right]. lia.
  - change (<[S t := p']> (x :: l)) with (x :: <[t := p']> l).
    rewrite !map_cons. change (l !! t = Some p) in H.
    specialize (IH t H). unfold list_sum in *. cbn [fold_right]. lia.
Qed.


Lemma fscanf_assigns f ret v f' :
  fscanf_d f = (ret, Some v, f') -> f = Int v :: f' /\ ret = 1.
Proof. destruct f as [|[w| |] f]; cbn; intros [=]; by subst. Qed.

(** A [fscanf] that assigns nothing either leaves the file where it is or
    has consumed a sign. *)
Lemma fscanf_fails f ret f' :
  fscanf_d f = (ret, None, f') ->
  ret <> 1 /\ exhausted f = true
  /\ ((f' = f /\ stuck f = true) \/ f = Sign :: f').
Proof. destruct f as [|[w| |] f]; cbn; intros [=]; subst; auto. Qed.

Lemma consumed_split src f pre : pre ++ f = src -> consumed src f = pre.
Proof.
  intros <-. unfold consumed. rewrite length_app.
  replace (length pre + length f - length f)%nat with (length pre) by lia.
  apply take_app_length.
Qed.

Lemma consumed_next src x f :
  consumed src (x :: f) ++ x :: f = src ->
  consumed src f = consumed src (x :: f) ++ [x].
Proof. intros H. apply consumed_split. by rewrite <- app_assoc. Qed.

Lemma ints_app a b : ints (a ++ b) = ints a ++ ints b.
Proof. induction a as [|[v| |] a IH]; cbn; congruence. Qed.

Lemma signs_app a b : signs (a ++ b) = (signs a + signs b)%nat.
Proof. induction a as [|[v| |] a IH]; cbn; lia. Qed.

Lemma has_junk_app a b : has_junk (a ++ b) = has_junk a || has_junk b.
Proof. induction a as [|[v| |] a IH]; cbn; congruence. Qed.

Lemma departed_insert (l : list pc) t p p' :
  l !! t = Some p ->
  (departed (<[t := p']> l) + (if leaving p then 1 else 0)
   = departed l + (if leaving p' then 1 else 0))%nat.
Proof.
  unfold departed.
  revert t. induction l as [|x l IH]; intros [|t] H; try done.
  - injection H as ->. change (<[0%nat := p']> (p :: l)) with (p' :: l).
    rewrite !map_cons. unfold list_sum. cbn [fold_right]. lia.
  - change (<[S t := p']> (x :: l)) with (x :: <[t := p']> l).
    rewrite !map_cons. change (l !! t = Some p) in H.
    specialize (IH t H). unfold list_sum in *. cbn [fold_right]. lia.
Qed.

Lemma departed_same (l : list pc) t p p' :
  l !! t = Some p -> leaving p' = leaving p ->
  departed (<[t := p']> l) = departed l.
Proof.
  intros H E. pose proof (departed_insert l t p p' H) as Hd.
  rewrite E in Hd. lia.
Qed.

Lemma departed_leave (l : list pc) t p p' :
  l !! t = Some p -> leaving p = false -> leaving p' = true ->
  departed (<[t := p']> l) = S (departed l).
Proof.
  intros H E E'. pose proof (departed_insert l t p p' H) as Hd.
  rewrite E, E' in Hd. lia.
Qed.

Lemma departed_replicate n : departed (replicate n AtLock) = 0%nat.
Proof. induction n as [|n IH]; [done|]. exact IH. Qed.

Lemma departed_all (l : list pc) :
  forallb is_returned l = true -> departed l = length l.
Proof.
  unfold departed. induction l as [|p l IH]; [done|].
  cbn [forallb]. intros [Hp Hl]%andb_prop.
  rewrite map_cons. unfold list_sum in *. cbn [fold_right length].
  rewrite IH by done. by destruct p.
Qed.

#[local] Arguments departed : simpl never.
#[local] Arguments consumed : simpl never.

Lemma producer_inv_init n src disp : inv src (init n src disp).
Proof.
  assert (E : consumed src src = []) by by apply consumed_split.
  constructor; cbn; rewrite ?E, ?departed_replicate; try done.
  - intros t p H. apply lookup_replicate_pc in H. by subst.
  - induction n as [|n IH]; [done|]. done.
  - by left.
Qed.

Lemma to_int_incr x : 0 <= x < MAX_DATA -> to_int (x + 1) = x + 1.
Proof. intros H. apply to_int_small. unfold MAX_DATA in H. lia. Qed.

(** Two workers that hold the mutex are the same worker. *)
Lemma producer_exclusive src s t1 t2 p1 p2 :
  inv src s -> threads s !! t1 = Some p1 -> threads s !! t2 = Some p2 ->
  holds p1 = true -> holds p2 = true -> t1 = t2.
Proof.
  intros I H1 H2 Hh1 Hh2.
  pose proof (inv_owner _ _ I _ _ H1 Hh1) as E1.
  pose proof (inv_owner _ _ I _ _ H2 Hh2) as E2. congruence.
Qed.

(** [pending] when worker [t] holds the mutex, and when nobody does. *)
Lemma pending_holder s t p :
  file_mutex s = Some t -> threads s !! t = Some p ->
  pending s = match p with AtIncr _ => 1 | _ => 0 end.
Proof. intros Hm Hp. unfold pending. by rewrite Hm, Hp. Qed.

Lemma pending_free s : file_mutex s = None -> pending s = 0.
Proof. intros Hm. unfold pending. by rewrite Hm. Qed.

(** A step of a worker that does not hold the mutex and does not take it
    leaves [pending] alone. *)
Lemma pending_other src s s' t p p' :
  inv src s -> threads s !! t = Some p -> holds p = false ->
  file_mutex s' = file_mutex s -> threads s' = <[t := p']> (threads s) ->
  pending s' = pending s.
Proof.
  intros I Hp Hh Hm Ht. unfold pending. rewrite Hm, Ht.
  destruct (file_mutex s) as [t'|] eqn:E; [|done].
  destruct (inv_held _ _ I t' E) as (q & Hq & Hhq).
  assert (t' <> t) by (intros ->; congruence).
  by rewrite list_lookup_insert_ne.
Qed.

(** Lines 63-70 keep the invariant whatever [send] returned. *)
Lemma producer_inv_after_send pf src t v n s :
  inv src s -> threads s !! t = Some (AtSend v) ->
  inv src (after_send pf t v n s).
Proof.
  intros I Hp. pose proof I as [Hc Ho Hh Hr Hsrc Hscan Hclean Hpen Hoff Hsig Hex].
  assert (Hlt : (t < length (threads s))%nat) by by eapply lookup_lt_Some.
  unfold after_send. constructor; cbn; try done.
  - intros; split_pc; eauto. by destruct (n =? 4).
  - intros t0 Hm0. destruct (Hh t0 Hm0) as (q & Hq & Hhq). exists q.
    split; [|done]. rewrite list_lookup_insert_ne; [done|].
    intros ->. by simplify_eq.
  - intros; split_pc; eauto. by destruct (n =? 4).
  - rewrite <- Hpen. f_equal.
    eapply (pending_other src s _ t (AtSend v)); eauto.
  - rewrite <- Hoff. rewrite <- !app_assoc. apply Permutation_app_head.
    rewrite Permutation_app_comm.
    change [v] with (carried (AtSend v)).
    rewrite (carried_insert _ _ _ _ Hp).
    by destruct (n =? 4); rewrite app_nil_r.
  - destruct (n =? 4); cbn [negb].
    + by rewrite (departed_same _ _ _ _ Hp).
    + rewrite (departed_leave _ _ _ _ Hp) by done. lia.
  - destruct (n =? 4); cbn [negb andb]; [|by auto].
    rewrite (departed_same _ _ _ _ Hp) by done. done.
Qed.

Lemma producer_inv_step pf src t r s s' :
  inv src s -> thread_step pf t r s = Some s' -> inv src s'.
Proof.
  intros I Hstep. pose proof I as [Hc Ho Hh Hr Hsrc Hscan Hclean Hpen Hoff Hsig Hex].
  unfold thread_step in Hstep. destruct (killed s) eqn:Hk; [done|].
  destruct (threads s !! t) as [p|] eqn:Hp; [|done].
  assert (Hlt : (t < length (threads s))%nat) by by eapply lookup_lt_Some.
  assert (Hexcl : forall t' p', t' <> t -> threads s !! t' = Some p' ->
                  holds p = true -> holds p' = true -> False).
  { intros t' p' Hne Hp' Hhp Hhp'. apply Hne.
    eapply (producer_exclusive src s t' t); eauto. }
  assert (Hme : holds p = true -> file_mutex s = Some t) by eauto.
  assert (Hroom : checked p = true -> numbers_read s < MAX_DATA) by eauto.
  assert (Hmine : forall p', holds p = true -> holds p' = true ->
            forall t0, file_mutex s = Some t0 ->
            exists q, <[t := p']> (threads s) !! t0 = Some q /\ holds q = true).
  { intros p' Hhp Hhp' t0 Hm0. rewrite Hme in Hm0 by done. injection Hm0 as <-.
    exists p'. split; [by apply list_lookup_insert_eq|done]. }
  destruct p.
  - (* pthread_mutex_lock *)
    destruct (file_mutex s) as [o|] eqn:Hm; simplify_eq.
    constructor; cbn; rewrite ?(departed_same _ _ _ _ Hp) by done; try done.
    + intros; split_pc; [done|]. exfalso. by pose proof (Ho _ _ H H0).
    + intros t0 [= <-]. exists AtCheck. by rewrite list_lookup_insert_eq.
    + intros; split_pc; eauto.
    + rewrite <- Hpen. rewrite (pending_free s Hm). unfold pending. cbn.
      by rewrite list_lookup_insert_eq.
    + by rewrite (carried_insert_same _ _ _ _ Hp).
  - (* the test of line 47 *)
    simplify_eq.
    destruct (Z.leb_spec MAX_DATA (numbers_read s)); constructor; cbn;
      rewrite ?(departed_same _ _ _ _ Hp), ?(departed_leave _ _ _ _ Hp) by done;
      try done;
      try (intros; split_pc; by eauto); try (by apply Hmine);
      try (by rewrite (carried_insert_same _ _ _ _ Hp)); try lia; try (by auto).
    + rewrite <- Hpen. f_equal.
      rewrite (pending_holder s t AtCheck) by eauto.
      unfold pending. cbn. rewrite Hme by done.
      by rewrite list_lookup_insert_eq.
    + rewrite <- Hpen. f_equal.
      rewrite (pending_holder s t AtCheck) by eauto.
      unfold pending. cbn. rewrite Hme by done.
      by rewrite list_lookup_insert_eq.
  - (* fscanf *)
    destruct (fscanf_d (input_file s)) as [[ret [v|]] f'] eqn:Hf; simplify_eq.
    + apply fscanf_assigns in Hf as [Hfile ->].
      rewrite Hfile in Hsrc, Hscan, Hclean, Hsig, Hex.
      pose proof (consumed_next _ _ _ Hsrc) as Hnext.
      constructor; cbn; rewrite ?(departed_same _ _ _ _ Hp) by done;
        rewrite ?Hnext, ?ints_app, ?signs_app, ?has_junk_app, <- ?app_assoc;
        cbn; rewrite ?Hscan, ?Hclean, ?Nat.add_0_r; try done;
        try (intros; split_pc; by eauto); try (by apply Hmine).
      * rewrite length_app. cbn.
        rewrite (pending_holder s t AtFscanf) in Hpen by eauto.
        unfold pending. cbn. rewrite Hme by done.
        rewrite list_lookup_insert_eq by done. lia.
      * rewrite <- Hoff. rewrite <- !app_assoc. apply Permutation_app_head.
        change [v] with (carried (AtIncr v)).
        rewrite <- (carried_insert _ _ _ _ Hp).
        change (carried AtFscanf) with (@nil Z). by rewrite app_nil_r.
      * destruct Hex as [?|[?|[?|?]]]; try done; auto.
    + apply fscanf_fails in Hf as (Hret & Hexh & [[-> Hst]|Hfile]).
      * constructor; cbn; rewrite ?(departed_leave _ _ _ _ Hp) by done; try done;
          try (intros; split_pc; by eauto); try (by apply Hmine);
          try (by rewrite (carried_insert_same _ _ _ _ Hp)); try lia; try (by auto).
        rewrite <- Hpen. f_equal.
        rewrite (pending_holder s t AtFscanf) by eauto.
        unfold pending. cbn. rewrite Hme by done.
        by rewrite list_lookup_insert_eq.
      * rewrite Hfile in Hsrc, Hscan, Hclean, Hsig, Hex.
        pose proof (consumed_next _ _ _ Hsrc) as Hnext.
        constructor; cbn; rewrite ?(departed_leave _ _ _ _ Hp) by done;
          rewrite ?Hnext, ?ints_app, ?signs_app, ?has_junk_app, <- ?app_assoc;
          cbn; rewrite ?Hscan, ?Hclean, ?app_nil_r; try done;
          try (intros; split_pc; by eauto); try (by apply Hmine);
          try (by rewrite (carried_insert_same _ _ _ _ Hp)); try lia.
        -- rewrite <- Hpen. f_equal.
           rewrite (pending_holder s t AtFscanf) by eauto.
           unfold pending. cbn. rewrite Hme by done.
           by rewrite list_lookup_insert_eq.
        -- destruct Hex as [?|[?|[?|?]]]; try done; auto. left. lia.
  - (* numbers_read++ *)
    simplify_eq.
    assert (Hrange : 0 <= numbers_read s < MAX_DATA) by (split; [lia|by apply Hroom]).
    constructor; cbn; rewrite ?to_int_incr by done;
      rewrite ?(departed_same _ _ _ _ Hp) by done; try done;
      try (by apply Hmine);
      try (by rewrite (carried_insert_same _ _ _ _ Hp)).
    + lia.
    + intros; split_pc; eauto.
    + intros; split_pc. exfalso. eapply (Hexcl t0 p); eauto. by destruct p.
    + rewrite (pending_holder s t (AtIncr value)) in Hpen by eauto.
      unfold pending. cbn. rewrite Hme by done.
      rewrite list_lookup_insert_eq by done. lia.
    + destruct Hex as [?|[?|[?|?]]]; auto. right; left. lia.
  - (* printf *)
    simplify_eq.
    constructor; cbn; rewrite ?(departed_same _ _ _ _ Hp) by done; try done;
      try (intros; split_pc; by eauto); try (by apply Hmine);
      try (by rewrite (carried_insert_same _ _ _ _ Hp)).
    rewrite <- Hpen. f_equal.
    rewrite (pending_holder s t (AtPrintf value)) by eauto.
    unfold pending. cbn. rewrite Hme by done.
    by rewrite list_lookup_insert_eq.
  - (* pthread_mutex_unlock *)
    simplify_eq.
    constructor; cbn; rewrite ?(departed_same _ _ _ _ Hp) by done; try done;
      try (by rewrite (carried_insert_same _ _ _ _ Hp)).
    + intros; split_pc. exfalso. eapply (Hexcl t0 p); eauto.
    + intros; split_pc; eauto.
    + rewrite <- Hpen. f_equal.
      by rewrite (pending_holder s t (AtUnlock value)) by eauto.
  - (* send *)
    destruct r as [n|].
    + destruct (send_ok n); simplify_eq. by apply producer_inv_after_send.
    + destruct (sigpipe s); simplify_eq;
        try (by apply producer_inv_after_send).
      by constructor.
  - (* perror *)
    simplify_eq.
    constructor; cbn; rewrite ?(departed_same _ _ _ _ Hp) by done; try done;
      try (by rewrite (carried_insert_same _ _ _ _ Hp)).
    + intros; split_pc; eauto.
    + intros t0 Hm0. destruct (Hh t0 Hm0) as (q & Hq & Hhq). exists q.
      split; [|done]. rewrite list_lookup_insert_ne; [done|].
      intros ->. by simplify_eq.
    + intros; split_pc; eauto.
    + rewrite <- Hpen. f_equal.
      eapply (pending_other _ s _ t AtPerror); eauto.
  - (* pthread_mutex_unlock; break *)
    simplify_eq.
    constructor; cbn; rewrite ?(departed_same _ _ _ _ Hp) by done; try done;
      try (by rewrite (carried_insert_same _ _ _ _ Hp)).
    + intros; split_pc. exfalso. eapply (Hexcl t0 p); eauto.
    + intros; split_pc; eauto.
    + rewrite <- Hpen. f_equal.
      by rewrite (pending_holder s t AtUnlockBreak) by eauto.
  - done.
Qed.

Lemma producer_inv_reachable pf n src disp s :
  reachable pf n src disp s -> inv src s.
Proof.
  induction 1 as [|s t r s' _ IH Hstep].
  - apply producer_inv_init.
  - eapply producer_inv_step; eauto.
Qed.

Lemma producer_invariants_hold pf n src disp s :
  reachable pf n src disp s ->
  sigpipe s = disp /\ length (threads s) = n /\ (disp = SIG_IGN -> killed s = false).
Proof.
  induction 1 as [|s t r s' _ (IHd & IHn & IHk) Hstep].
  - cbn. by rewrite length_replicate.
  - unfold thread_step in Hstep. destruct (killed s) eqn:Hk; [done|].
    destruct (threads s !! t) as [p|] eqn:Hp; [|done].
    destruct p; simplify_eq; try (by rewrite ?length_insert);
      repeat case_match; simplify_eq; unfold after_send; cbn;
      by rewrite ?length_insert.
Qed.

(** A step of a worker that does not hold the mutex leaves the counter and
    the file alone. *)
Lemma producer_step_outside pf t r s s' p :
  threads s !! t = Some p -> holds p = false ->
  thread_step pf t r s = Some s' ->
  numbers_read s' = numbers_read s /\ input_file s' = input_file s.
Proof.
  intros Hp Hh Hstep. unfold thread_step in Hstep.
  destruct (killed s); [done|]. rewrite Hp in Hstep.
  destruct p; try done; repeat case_match; by simplify_eq.
Qed.

(** The counter moves only at line 57, by one. *)
Lemma producer_step_counter pf src t r s s' :
  inv src s -> thread_step pf t r s = Some s' ->
  numbers_read s' = numbers_read s
  \/ (exists v, threads s !! t = Some (AtIncr v))
     /\ numbers_read s' = numbers_read s + 1.
Proof.
  intros I Hstep. unfold thread_step in Hstep.
  destruct (killed s); [done|].
  destruct (threads s !! t) as [p|] eqn:Hp; [|done].
  destruct p; try (repeat case_match; simplify_eq; by left).
  simplify_eq. right. split; [by eauto|]. cbn.
  apply to_int_incr. pose proof (inv_count _ _ I).
  pose proof (inv_room _ _ I t _ Hp eq_refl). lia.
Qed.

(** In a file of integers only what has been consumed is integers. *)
Lemma ints_of_prefix pre f values :
  pre ++ f = map Int values -> map Int (ints pre) = pre /\ signs pre = 0%nat.
Proof.
  revert values. induction pre as [|x pre IH]; intros [|v values] H; try done.
  injection H as -> H. destruct (IH _ H) as [E1 E2]. cbn. by rewrite E1.
Qed.

(** C2. In every state of every run of the producer workers the counter
    [numbers_read] is between 0 and MAX_DATA = 100, and no step lowers it.
    The [fscanf] and the increment are one critical section: two workers
    that hold [file_mutex] are the same worker, and while a worker holds
    it no step of another worker changes the counter or the file.  So the
    part of the file consumed so far followed by the rest of the file is
    the file as it was, and the integers in the consumed part are the
    integers read, in the order read (no value skipped, none read twice);
    what was consumed besides them is signs without digits, never other
    text.  For a file of integers only, the integers read followed by the
    rest of the file are the file.  And the counter is the number of
    integers read, less the one a worker has read and is about to
    count. *)
Theorem producer_read_counter pf n src disp s :
  reachable pf n src disp s ->
  0 <= numbers_read s <= MAX_DATA
  /\ MAX_DATA = 100
  /\ (forall t r s', thread_step pf t r s = Some s' ->
                     numbers_read s <= numbers_read s')
  /\ (forall t1 t2 p1 p2,
        threads s !! t1 = Some p1 -> threads s !! t2 = Some p2 ->
        holds p1 = true -> holds p2 = true -> t1 = t2)
  /\ (forall t p t' r s',
        threads s !! t = Some p -> holds p = true -> t' <> t ->
        thread_step pf t' r s = Some s' ->
        numbers_read s' = numbers_read s /\ input_file s' = input_file s)
  /\ (exists pre, pre ++ input_file s = src
                  /\ ints pre = scanned (output s)
                  /\ has_junk pre = false)
  /\ (forall values, src = map Int values ->
        map Int (scanned (output s)) ++ input_file s = src)
  /\ numbers_read s + pending s = Z.of_nat (length (scanned (output s)))
  /\ 0 <= pending s <= 1.
Proof.
  intros H. apply producer_inv_reachable in H.
  split; [apply (inv_count _ _ H)|]. split; [done|]. split; [|split; [|split]].
  - intros t r s' Hstep.
    destruct (producer_step_counter _ _ _ _ _ _ H Hstep) as [->|[_ ->]]; lia.
  - intros t1 t2 p1 p2. by apply (producer_exclusive src).
  - intros t p t' r s' Hp Hh Hne Hstep.
    destruct (threads s !! t') as [p'|] eqn:Hp'.
    + eapply producer_step_outside; eauto.
      destruct (holds p') eqn:Hh'; [|done].
      exfalso. apply Hne. eapply (producer_exclusive src s t' t); eauto.
    + unfold thread_step in Hstep. rewrite Hp' in Hstep.
      by destruct (killed s).
  - split.
    { exists (consumed src (input_file s)).
      split; [apply (inv_source _ _ H)|].
      split; [apply (inv_scanned _ _ H)|apply (inv_clean _ _ H)]. }
    split.
    { intros values Hv. pose proof (inv_source _ _ H) as Hsrc.
      rewrite Hv in Hsrc at 2. apply ints_of_prefix in Hsrc as [Hsrc _].
      rewrite <- (inv_scanned _ _ H), Hsrc. apply (inv_source _ _ H). }
    split; [apply (inv_pending _ _ H)|].
    unfold pending. repeat case_match; lia.
Qed.

Lemma producer_reachable_run pf n src disp sched s :
  reachable pf n src disp s -> reachable pf n src disp (run pf sched s).
Proof.
  revert s. induction sched as [|[t r] sched IH]; intros s H; cbn; [done|].
  destruct (thread_step pf t r s) eqn:E; apply IH; [|done].
  eapply reach_step; eauto.
Qed.

Lemma sent_offered out : no_send_failure out = true -> sent out = offered out.
Proof.
  induction out as [|e out IH]; [done|].
  destruct e; cbn; try done. intros [-> H]%andb_prop. by rewrite IH.
Qed.

Lemma returned_carry (l : list pc) :
  forallb is_returned l = true -> l ≫= carried = [].
Proof.
  induction l as [|p l IH]; [done|]. cbn. intros [Hp Hl]%andb_prop.
  rewrite IH by done. by destruct p.
Qed.

Lemma not_all_returned (l : list pc) :
  forallb is_returned l = false ->
  exists t p, l !! t = Some p /\ is_returned p = false.
Proof.
  induction l as [|p l IH]; [done|]. cbn.
  destruct (is_returned p) eqn:E; cbn.
  - intros (t & q & Hq & Hr)%IH. by exists (S t), q.
  - intros _. by exists 0%nat, p.
Qed.

Lemma all_returned_lookup (l : list pc) t p :
  forallb is_returned l = true -> l !! t = Some p -> p = Returned.
Proof.
  revert t. induction l as [|q l IH]; intros [|t]; cbn; try done.
  - intros [Hq _]%andb_prop [= <-]. by destruct q.
  - intros [_ Hl]%andb_prop. by apply IH.
Qed.


(** Every step but the death of the process lowers [measure]: runs are
    finite. *)
Lemma producer_step_measure pf t r s s' :
  thread_step pf t r s = Some s' -> killed s' = false ->
  (measure s' < measure s)%nat.
Proof.
  intros Hstep Hk'. unfold thread_step in Hstep.
  destruct (killed s) eqn:Hk; [done|].
  destruct (threads s !! t) as [p|] eqn:Hp; [|done].
  destruct p; repeat case_match; simplify_eq; unfold after_send, measure;
    cbn [input_file threads set_pc set_mutex log incr set_file kill killed] in *;
    try done;
    repeat match goal with
    | |- context [negb (?x =? 4)] => destruct (x =? 4); cbn [negb]
    end;
    match goal with
    | |- context [<[t := ?p']> (threads s)] =>
        pose proof (rank_insert (threads s) t _ p' Hp) as Hrank;
        set (a := list_sum (map rank (<[t := p']> (threads s)))) in *;
        set (b := list_sum (map rank (threads s))) in *
    end;
    unfold rank in Hrank;
    repeat match goal with
    | H : fscanf_d _ = (_, Some _, _) |- _ =>
        apply fscanf_assigns in H as [H ?]; rewrite H; cbn [length]
    | H : fscanf_d _ = (_, None, _) |- _ =>
        apply fscanf_fails in H as (? & ? & [[-> ?]|H]); [|rewrite H; cbn [length]]
    end;
    lia.
Qed.


(** While a worker has not returned, some worker can move. *)
Lemma producer_progress pf src s :
  inv src s -> killed s = false -> all_returned s = false ->
  exists t s', thread_step pf t (Returns 4) s = Some s'.
Proof.
  intros I Hk Hall. unfold thread_step. rewrite Hk.
  destruct (file_mutex s) as [t0|] eqn:Hm.
  - destruct (inv_held _ _ I t0 Hm) as (q & Hq & Hh). exists t0.
    rewrite Hq. destruct q; try done; repeat case_match; eauto.
  - destruct (not_all_returned _ Hall) as (t & p & Hp & Hr). exists t.
    rewrite Hp.
    destruct (holds p) eqn:Hh.
    { pose proof (inv_owner _ _ I t p Hp Hh). congruence. }
    destruct p; try done; cbn; eauto.
Qed.



Lemma producer_read_counter_witness :
  let src := [Int 1; Sign; Int 2; Int 3] in
  let s := run pf0 (round_robin 40) (init 2 src SIG_IGN) in
  reachable pf0 2 src SIG_IGN s
  /\ 0 <= numbers_read s <= MAX_DATA
  /\ numbers_read s = 3 /\ scanned (output s) = [1; 2; 3]
  /\ exists pre, pre ++ input_file s = src /\ ints pre = scanned (output s).
Proof.
  intros src s.
  assert (H : reachable pf0 2 src SIG_IGN s)
    by (apply producer_reachable_run, reach_init).
  assert (Hn : numbers_read s = 3) by (vm_compute; reflexivity).
  assert (Hs : scanned (output s) = [1; 2; 3]) by (vm_compute; reflexivity).
  destruct (producer_read_counter pf0 2 src SIG_IGN s H)
    as (Hc & _ & _ & _ & _ & (pre & H1 & H2 & _) & _).
  split; [exact H|]. split; [exact Hc|]. split; [exact Hn|]. split; [exact Hs|].
  exists pre. split; [exact H1|exact H2].
Defined.

(** With SIGPIPE ignored, a [send] on a connection the peer has closed
    returns -1: the worker reports it and returns; the process lives, the
    counter, the file and the mutex are untouched, and so is every other
    worker. *)
Lemma producer_broken_pipe pf s t v :
  killed s = false -> sigpipe s = SIG_IGN -> threads s !! t = Some (AtSend v) ->
  exists s1 s2,
    thread_step pf t Broken_pipe s = Some s1
    /\ s1 = after_send pf t v (-1) s
    /\ threads s1 = <[t := AtPerror]> (threads s)
    /\ thread_step pf t Broken_pipe s1 = Some s2
    /\ threads s2 = <[t := Returned]> (threads s)
    /\ killed s2 = false
    /\ output s2 = Send_failed t "send failed"
                     :: Send t v (send_frame (host pf) v) (-1) :: output s
    /\ numbers_read s2 = numbers_read s
    /\ input_file s2 = input_file s
    /\ file_mutex s2 = file_mutex s
    /\ sigpipe s2 = SIG_IGN.
Proof.
  intros Hk Hd Hp.
  assert (Hlt : (t < length (threads s))%nat) by by eapply lookup_lt_Some.
  eexists _, _. unfold thread_step at 1. rewrite Hk, Hp, Hd.
  split; [reflexivity|]. split; [reflexivity|].
  unfold after_send. cbn [negb Z.eqb]. split; [reflexivity|].
  unfold thread_step. cbn. rewrite Hk, list_lookup_insert_eq by done.
  split; [reflexivity|]. cbn. by rewrite list_insert_insert_eq.
Qed.

(** Whether a worker can move depends on its own program counter, the
    mutex, the file and the signal disposition only. *)
Lemma producer_sibling_enabled pf s s2 t p t' r :
  t' <> t -> threads s2 = <[t := p]> (threads s) -> killed s2 = killed s ->
  file_mutex s2 = file_mutex s -> input_file s2 = input_file s ->
  sigpipe s2 = sigpipe s ->
  is_Some (thread_step pf t' r s2) <-> is_Some (thread_step pf t' r s).
Proof.
  intros Hne Ht Hk Hm Hf Hd. unfold thread_step.
  rewrite Hk, Ht, Hm, Hf, Hd, list_lookup_insert_ne by done.
  destruct (killed s); [done|].
  destruct (threads s !! t') as [q|]; [|done].
  destruct q; repeat case_match; split; intros; simplify_eq; eauto;
    by apply is_Some_None in H.
Qed.

(** Under the default disposition the same [send] ends the process. *)
Lemma producer_sigpipe_default pf s t v :
  killed s = false -> sigpipe s = SIG_DFL -> threads s !! t = Some (AtSend v) ->
  thread_step pf t Broken_pipe s = Some (kill s)
  /\ forall t' r, thread_step pf t' r (kill s) = None.
Proof.
  intros Hk Hd Hp. unfold thread_step. by rewrite Hk, Hp, Hd.
Qed.

End ProducerFacts.

(* ===================================================================== *)
(** ** Facts about the connect loop and [main] of the producer *)
(* ===================================================================== *)

Section ProducerMainFacts.
Import Wire Sys Producer.

#[local] Arguments Sys.create_loop : simpl never.
#[local] Arguments Sys.join_loop : simpl never.

Lemma fatal_eq {A : Type} pid tr :
  @fatal A pid tr = (Exit EXIT_FAILURE, tr ++ [Kill pid SIGTERM; Waitpid pid; Fclose]).
Proof. unfold fatal. unfold_M. by rewrite <- !app_assoc. Qed.

Lemma connect_fuel_51 : connect_fuel = 51%nat.
Proof. reflexivity. Qed.

(** One refused attempt that is followed by another. *)
Lemma connect_loop_retry e pid fuel k tr :
  refused_at e k -> (k < 50)%nat ->
  connect_loop e pid (S fuel) k (Z.of_nat k) tr
  = connect_loop e pid fuel (S k) (Z.of_nat (S k)) (tr ++ retry_block e k).
Proof.
  intros (Hs & Hc & Hr) Hk. cbn [connect_loop]. unfold_M.
  destruct (Z.ltb_spec (socket_ret e k) 0); [lia|]. unfold_M.
  destruct (Z.eqb_spec (connect_ret e k) 0); [done|]. unfold_M.
  rewrite to_int_small by lia.
  assert (Hlt : (MAX_RETRIES <? Z.of_nat k + 1) = false)
    by (apply Z.ltb_ge; unfold MAX_RETRIES; lia).
  replace (Z.of_nat (S k)) with (Z.of_nat k + 1) by lia.
  unfold retry_block.
  destruct (connect_errno e k); try done; unfold_M; rewrite Hlt;
    f_equal; by rewrite <- !app_assoc.
Qed.

Lemma connect_loop_blocks e pid m fuel k tr :
  (forall j, (k <= j < k + m)%nat -> refused_at e j) -> (k + m <= 50)%nat ->
  connect_loop e pid (m + fuel) k (Z.of_nat k) tr
  = connect_loop e pid fuel (k + m) (Z.of_nat (k + m))
      (tr ++ concat (map (retry_block e) (seq k m))).
Proof.
  revert k tr. induction m as [|m IH]; intros k tr Hr Hk.
  - cbn. by rewrite Nat.add_0_r, app_nil_r.
  - cbn [Nat.add]. rewrite connect_loop_retry by (try apply Hr; lia).
    rewrite IH by (try (intros; apply Hr); lia).
    cbn [seq map concat]. rewrite <- !app_assoc.
    by replace (S k + m)%nat with (k + S m)%nat by lia.
Qed.

(** The consumer listens at attempt [k], after [k] refused attempts. *)
Lemma connect_loop_connects e pid k :
  (k <= 50)%nat -> (forall j, (j < k)%nat -> refused_at e j) ->
  0 <= socket_ret e k -> connect_ret e k = 0 ->
  connect_loop e pid connect_fuel 0 0 []
  = (Done (socket_ret e k),
     retry_blocks e k ++ [Socket (socket_ret e k); Connect (socket_ret e k)]).
Proof.
  intros Hk Hr Hs Hc.
  rewrite connect_fuel_51. replace 51%nat with (k + S (50 - k))%nat by lia.
  change 0 with (Z.of_nat 0) at 1.
  rewrite connect_loop_blocks by (try (intros; apply Hr); lia).
  cbn [connect_loop Nat.add app]. unfold_M.
  destruct (Z.ltb_spec (socket_ret e k) 0); [lia|]. unfold_M.
  rewrite Hc. cbn. by rewrite <- !app_assoc.
Qed.

(** Every one of the 51 attempts is refused. *)
Lemma connect_loop_exhausted e pid :
  (forall j, (j <= 50)%nat -> refused_at e j) ->
  connect_loop e pid connect_fuel 0 0 []
  = (Exit EXIT_FAILURE,
     retry_blocks e 51
     ++ [Fprintf_stderr "Failed to connect after 50 retries";
         Kill pid SIGTERM; Waitpid pid; Fclose]).
Proof.
  intros Hr.
  rewrite connect_fuel_51. change 51%nat with (50 + 1)%nat.
  change 0 with (Z.of_nat 0) at 1.
  rewrite connect_loop_blocks by (try (intros; apply Hr); lia).
  destruct (Hr 50%nat) as (Hs & Hc & Hx); [lia|].
  cbn [connect_loop Nat.add app]. unfold_M.
  destruct (Z.ltb_spec (socket_ret e 50) 0); [lia|]. unfold_M.
  destruct (Z.eqb_spec (connect_ret e 50) 0); [done|]. unfold_M.
  destruct (connect_errno e 50); try done; unfold_M; reflexivity.
Qed.

(** Attempt [k] fails with an error that is not retried. *)
Lemma connect_loop_other_error e pid k :
  (k <= 50)%nat -> (forall j, (j < k)%nat -> refused_at e j) ->
  0 <= socket_ret e k -> connect_ret e k <> 0 ->
  refused (connect_errno e k) = false ->
  connect_loop e pid connect_fuel 0 0 []
  = (Exit EXIT_FAILURE,
     retry_blocks e k
     ++ [Socket (socket_ret e k); Connect (socket_ret e k);
         Close (socket_ret e k); Perror "connect";
         Kill pid SIGTERM; Waitpid pid; Fclose]).
Proof.
  intros Hk Hr Hs Hc Hx.
  rewrite connect_fuel_51. replace 51%nat with (k + S (50 - k))%nat by lia.
  change 0 with (Z.of_nat 0) at 1.
  rewrite connect_loop_blocks by (try (intros; apply Hr); lia).
  cbn [connect_loop Nat.add app]. unfold_M.
  destruct (Z.ltb_spec (socket_ret e k) 0); [lia|]. unfold_M.
  destruct (Z.eqb_spec (connect_ret e k) 0); [done|]. unfold_M.
  destruct (connect_errno e k); try done; unfold_M.
  rewrite fatal_eq. by rewrite <- !app_assoc.
Qed.

(** [socket] fails at attempt [k]. *)
Lemma connect_loop_no_socket e pid k :
  (k <= 50)%nat -> (forall j, (j < k)%nat -> refused_at e j) ->
  socket_ret e k < 0 ->
  connect_loop e pid connect_fuel 0 0 []
  = (Exit EXIT_FAILURE,
     retry_blocks e k
     ++ [Socket (socket_ret e k); Perror "socket creation failed";
         Kill pid SIGTERM; Waitpid pid; Fclose]).
Proof.
  intros Hk Hr Hs.
  rewrite connect_fuel_51. replace 51%nat with (k + S (50 - k))%nat by lia.
  change 0 with (Z.of_nat 0) at 1.
  rewrite connect_loop_blocks by (try (intros; apply Hr); lia).
  cbn [connect_loop Nat.add app]. unfold_M.
  destruct (Z.ltb_spec (socket_ret e k) 0); [|lia]. unfold_M.
  rewrite fatal_eq. by rewrite <- !app_assoc.
Qed.

Lemma attempts_app a b : attempts (a ++ b) = (attempts a + attempts b)%nat.
Proof. unfold attempts. by rewrite List.filter_app, length_app. Qed.

Lemma attempts_retry_block e k : attempts (retry_block e k) = 1%nat.
Proof. reflexivity. Qed.

Lemma connect_loop_S e pid fuel k retries :
  connect_loop e pid (S fuel) k retries =
  (socket_fd ← syscall (Socket (socket_ret e k)) (socket_ret e k);
   if socket_fd <? 0 then
     emit (Perror "socket creation failed");; fatal pid
   else
     r ← syscall (Connect socket_fd) (connect_ret e k);
     if r =? 0 then mret socket_fd
     else
       emit (Close socket_fd);;
       match connect_errno e k with
       | ECONNREFUSED | ENETUNREACH =>
           emit (Usleep 100000);;
           let retries := to_int (retries + 1) in
           if MAX_RETRIES <? retries then
             emit (Fprintf_stderr "Failed to connect after 50 retries");;
             fatal pid
           else connect_loop e pid fuel (S k) retries
       | Errno _ =>
           emit (Perror "connect");; fatal pid
       end).
Proof. reflexivity. Qed.

Lemma connect_fails_S e b k :
  connect_fails e (S b) k =
  (socket_ret e k <? 0)
  || (negb (connect_ret e k =? 0)
      && (negb (refused (connect_errno e k)) || connect_fails e b (S k))).
Proof. reflexivity. Qed.

#[local] Arguments Producer.connect_loop : simpl never.
#[local] Arguments Producer.connect_fails : simpl never.

Ltac count_attempts :=
  unfold attempts; cbn [app List.filter is_connect length]; lia.

(** The loop after a refused attempt, in terms of the rest of the loop. *)
Lemma connect_loop_refused e pid f k tr :
  (k <= 50)%nat -> 0 <= socket_ret e k -> connect_ret e k <> 0 ->
  refused (connect_errno e k) = true ->
  connect_loop e pid (S f) k (Z.of_nat k) tr =
  if MAX_RETRIES <? Z.of_nat (S k) then
    (Exit EXIT_FAILURE,
     tr ++ retry_block e k
        ++ [Fprintf_stderr "Failed to connect after 50 retries";
            Kill pid SIGTERM; Waitpid pid; Fclose])
  else connect_loop e pid f (S k) (Z.of_nat (S k)) (tr ++ retry_block e k).
Proof.
  intros Hk Hs Hc Hx. rewrite connect_loop_S. unfold_M.
  destruct (Z.ltb_spec (socket_ret e k) 0); [lia|]. unfold_M.
  destruct (Z.eqb_spec (connect_ret e k) 0); [done|]. unfold_M.
  rewrite to_int_small by lia.
  replace (Z.of_nat k + 1) with (Z.of_nat (S k)) by lia.
  unfold retry_block.
  destruct (connect_errno e k); try done; unfold_M;
    destruct (MAX_RETRIES <? Z.of_nat (S k)); unfold_M;
    rewrite ?fatal_eq, <- ?app_assoc; reflexivity.
Qed.

(** The loop from attempt [k] on, with the fuel that is left of 51: it
    only adds calls, none of them [signal]; it makes no more [connect]
    calls than it has fuel; and it ends in [exit (EXIT_FAILURE)] after
    killing the consumer, or with a connected socket, as [connect_fails]
    says. *)
Lemma connect_loop_general e pid f k tr :
  (k + S f = 51)%nat ->
  exists r ext,
    connect_loop e pid (S f) k (Z.of_nat k) tr = (r, tr ++ ext)
    /\ forallb (fun c => negb (is_signal c)) ext = true
    /\ (attempts ext <= S f)%nat
    /\ (if connect_fails e (S f) k
        then r = Exit EXIT_FAILURE
             /\ exists ext0, ext = ext0 ++ [Kill pid SIGTERM; Waitpid pid; Fclose]
        else exists fd, r = Done fd).
Proof.
  revert k tr. induction f as [|f IH]; intros k tr Hk.
  all: rewrite connect_fails_S.
  all: destruct (Z.ltb_spec (socket_ret e k) 0) as [Hs|Hs].
  1,3: rewrite connect_loop_S; unfold_M;
       destruct (Z.ltb_spec (socket_ret e k) 0); [|lia]; unfold_M;
       rewrite fatal_eq, <- !app_assoc; eexists _, _;
       split; [reflexivity|]; split; [reflexivity|];
       split; [count_attempts|]; split; [reflexivity|];
       by exists [Socket (socket_ret e k); Perror "socket creation failed"].
  all: destruct (Z.eqb_spec (connect_ret e k) 0) as [Hc|Hc].
  1,3: rewrite connect_loop_S; unfold_M;
       destruct (Z.ltb_spec (socket_ret e k) 0); [lia|]; unfold_M;
       rewrite Hc; cbn; rewrite <- !app_assoc; eexists _, _;
       split; [reflexivity|]; split; [reflexivity|];
       split; [count_attempts|]; by eexists.
  all: destruct (refused (connect_errno e k)) eqn:Hx.
  2,4: rewrite connect_loop_S; unfold_M;
       destruct (Z.ltb_spec (socket_ret e k) 0); [lia|]; unfold_M;
       destruct (Z.eqb_spec (connect_ret e k) 0); [done|]; unfold_M;
       destruct (connect_errno e k); try done; unfold_M;
       rewrite fatal_eq, <- !app_assoc; eexists _, _;
       split; [reflexivity|]; split; [reflexivity|];
       split; [count_attempts|]; split; [reflexivity|];
       by exists [Socket (socket_ret e k); Connect (socket_ret e k);
                  Close (socket_ret e k); Perror "connect"].
  all: rewrite connect_loop_refused by (done || lia).
  all: destruct (Z.ltb_spec MAX_RETRIES (Z.of_nat (S k)));
       unfold MAX_RETRIES in *; try lia.
  - eexists _, _. split; [reflexivity|]. split; [reflexivity|].
    split; [unfold retry_block; count_attempts|]. split; [reflexivity|].
    by exists (retry_block e k
               ++ [Fprintf_stderr "Failed to connect after 50 retries"]).
  - destruct (IH (S k) (tr ++ retry_block e k)) as (r & ext & Heq & Hsig & Hatt & Hres);
      [lia|].
    rewrite Heq, <- app_assoc. exists r, (retry_block e k ++ ext).
    split; [reflexivity|]. split; [exact Hsig|].
    split; [rewrite attempts_app, attempts_retry_block; lia|].
    cbn [negb andb orb].
    destruct (connect_fails e (S f) (S k)); [|exact Hres].
    destruct Hres as [-> [ext0 ->]]. split; [reflexivity|].
    exists (retry_block e k ++ ext0). by rewrite <- app_assoc.
Qed.

(** Fuel beyond what the loop uses changes nothing. *)
Lemma connect_loop_fuel e pid f extra k retries tr :
  (connect_loop e pid f k retries tr).1 <> Spin ->
  connect_loop e pid (f + extra) k retries tr = connect_loop e pid f k retries tr.
Proof.
  revert k retries tr. induction f as [|f IH]; intros k retries tr; [done|].
  cbn [Nat.add]. rewrite !connect_loop_S. unfold_M.
  destruct (socket_ret e k <? 0); unfold_M; [done|].
  destruct (connect_ret e k =? 0); unfold_M; [done|].
  destruct (connect_errno e k); unfold_M; try done;
    (destruct (MAX_RETRIES <? to_int (retries + 1)); unfold_M; [done|apply IH]).
Qed.

(** C6. The connect loop of the producer (MAX_RETRIES = 50).  Every failed
    attempt is made on a socket created for it and closed after it, and a
    refused or unreachable attempt is followed by a sleep of 100000
    microseconds before the next [socket] and [connect]: the calls of such an
    attempt are [retry_block].  The loop ends for every environment, after
    at most 51 [connect] calls, that is at most 50 retries of the first
    attempt.  It ends with the connected socket if some attempt within
    these succeeds after refused ones only; otherwise, when all 51 attempts
    are refused, or an attempt fails with any other error, or [socket]
    fails, it sends SIGTERM to the consumer, waits for it, closes the file
    and leaves through [exit (EXIT_FAILURE)]. *)
Theorem producer_connect_retry e pid :
  MAX_RETRIES = 50
  /\ (forall k, retry_block e k =
                [Socket (socket_ret e k); Connect (socket_ret e k);
                 Close (socket_ret e k); Usleep 100000])
  /\ (exists r tr,
        connect_loop e pid connect_fuel 0 0 [] = (r, tr)
        /\ r <> Spin
        /\ (forall extra, connect_loop e pid (connect_fuel + extra) 0 0 [] = (r, tr))
        /\ (attempts tr <= 1 + Z.to_nat MAX_RETRIES)%nat
        /\ (forall code, r = Exit code ->
              code = EXIT_FAILURE
              /\ exists tr0, tr = tr0 ++ [Kill pid SIGTERM; Waitpid pid; Fclose]))
  /\ (forall k, (k <= 50)%nat -> (forall j, (j < k)%nat -> refused_at e j) ->
        0 <= socket_ret e k -> connect_ret e k = 0 ->
        connect_loop e pid connect_fuel 0 0 []
        = (Done (socket_ret e k),
           retry_blocks e k ++ [Socket (socket_ret e k); Connect (socket_ret e k)]))
  /\ ((forall j, (j <= 50)%nat -> refused_at e j) ->
        connect_loop e pid connect_fuel 0 0 []
        = (Exit EXIT_FAILURE,
           retry_blocks e 51
           ++ [Fprintf_stderr "Failed to connect after 50 retries";
               Kill pid SIGTERM; Waitpid pid; Fclose]))
  /\ (forall k, (k <= 50)%nat -> (forall j, (j < k)%nat -> refused_at e j) ->
        0 <= socket_ret e k -> connect_ret e k <> 0 ->
        refused (connect_errno e k) = false ->
        connect_loop e pid connect_fuel 0 0 []
        = (Exit EXIT_FAILURE,
           retry_blocks e k
           ++ [Socket (socket_ret e k); Connect (socket_ret e k);
               Close (socket_ret e k); Perror "connect";
               Kill pid SIGTERM; Waitpid pid; Fclose])).
Proof.
  split; [done|]. split; [done|]. split; [|split; [|split]].
  - destruct (connect_loop_general e pid 50 0 [] eq_refl)
      as (r & ext & Heq & _ & Hatt & Hres).
    change (S 50) with connect_fuel in Heq. change (Z.of_nat 0) with 0 in Heq.
    cbn [app] in Heq.
    assert (Hspin : r <> Spin).
    { destruct (connect_fails e 51 0); [by destruct Hres as [-> _]|].
      by destruct Hres as [fd ->]. }
    exists r, ext. split; [done|]. split; [done|]. split; [|split].
    + intros extra. rewrite connect_loop_fuel; [done|]. by rewrite Heq.
    + exact Hatt.
    + intros code ->. destruct (connect_fails e 51 0).
      * destruct Hres as [[= ->] Hext]. done.
      * by destruct Hres as [fd Hfd].
  - intros k. apply connect_loop_connects.
  - apply connect_loop_exhausted.
  - intros k. apply connect_loop_other_error.
Qed.

Lemma producer_connect_retry_witness :
  (forall j, (j <= 50)%nat -> refused_at env_refused j)
  /\ connect_loop env_refused 77 connect_fuel 0 0 []
     = (Exit EXIT_FAILURE,
        retry_blocks env_refused 51
        ++ [Fprintf_stderr "Failed to connect after 50 retries";
            Kill 77 SIGTERM; Waitpid 77; Fclose]).
Proof.
  assert (H : forall j, (j <= 50)%nat -> refused_at env_refused j).
  { intros j _. unfold refused_at. cbn. split; [lia|]. split; [lia|reflexivity]. }
  split; [exact H|].
  exact (proj1 (proj2 (proj2 (proj2 (proj2 (producer_connect_retry env_refused 77))))) H).
Defined.

Lemma producer_teardown_exit h tr :
  exists ext, teardown h tr = (Exit 0, tr ++ ext).
Proof.
  unfold teardown. unfold mbind at 1, M_bind at 1.
  destruct (join_loop_extends (created h) 0 tr) as (ext & ->).
  unfold_M. rewrite <- !app_assoc. eauto.
Qed.

Lemma disposition_no_signal sig tr h :
  forallb (fun c => negb (is_signal c)) tr = true -> disposition sig tr h = h.
Proof.
  revert h. induction tr as [|c tr IH]; intros h; [done|].
  cbn. intros [Hc Htr]%andb_prop. destruct c; try done; by apply IH.
Qed.

(** What [setup] does, for every environment: its first call ignores
    SIGPIPE and it never calls [signal] again; it leaves through [exit]
    exactly when [setup_fails] says so, and then with [EXIT_FAILURE]; it
    never loops. *)
Lemma producer_setup_outcome e :
  exists r rest,
    setup e [] = (r, Signal SIGPIPE SIG_IGN :: rest)
    /\ forallb (fun c => negb (is_signal c)) rest = true
    /\ match r with
       | Done _ => setup_fails e = false
       | Exit code => setup_fails e = true /\ code = EXIT_FAILURE
       | Exec _ => fork_ret e = 0 /\ execl_fails e = false
       | Spin => False
       end.
Proof.
  unfold setup, setup_fails. unfold_M.
  destruct (fork_ret e <? 0) eqn:E1; unfold_M; [by eexists _, _|].
  destruct (fork_ret e =? 0) eqn:E2; unfold_M.
  { apply Z.eqb_eq in E2. destruct (execl_fails e); unfold_M; by eexists _, _. }
  destruct (fopen_ret e) as [f|]; unfold_M; [|by eexists _, _].
  match goal with
  | |- context [connect_loop e ?pid connect_fuel 0 0 ?tr] =>
      destruct (connect_loop_general e pid 50 0 tr eq_refl)
        as (r & ext & Heq & Hsig & _ & Hres);
      change (S 50) with connect_fuel in *; change (Z.of_nat 0) with 0 in Heq;
      rewrite Heq
  end.
  destruct (connect_fails e connect_fuel 0).
  - destruct Hres as [-> _]. eexists _, _. split; [reflexivity|].
    split; [|done]. cbn. exact Hsig.
  - destruct Hres as [fd ->].
    match goal with
    | |- context [create_loop ?r ?f ?i ?c ?tr] =>
        destruct (create_loop_extends r f i c tr) as (n & ext' & -> & Hsig')
    end.
    eexists _, _. split; [reflexivity|]. split; [|done].
    cbn. by rewrite forallb_app, Hsig, Hsig'.
Qed.


(** The first call of [main] ignores SIGPIPE, and the workers run with
    it ignored. *)
Lemma producer_main_ignores_sigpipe pf e :
  (exists rest, calls (main pf e) = Signal SIGPIPE SIG_IGN :: rest)
  /\ (forall h tr, setup e [] = (Done h, tr) ->
        disposition SIGPIPE tr SIG_DFL = SIG_IGN
        /\ globals (main pf e)
           = run pf (schedule e) (init (created h) (file h) SIG_IGN)).
Proof.
  unfold main.
  destruct (producer_setup_outcome e) as (r & rest & Heq & Hsig & Hr).
  rewrite Heq.
  assert (Hd : disposition SIGPIPE (Signal SIGPIPE SIG_IGN :: rest) SIG_DFL = SIG_IGN).
  { cbn. by apply disposition_no_signal. }
  split.
  - destruct r as [h|c|path|]; [|by eexists|by eexists|by eexists].
    rewrite Hd.
    destruct (killed _); [by eexists|].
    destruct (all_returned _); [|by eexists].
    destruct (producer_teardown_exit h (Signal SIGPIPE SIG_IGN :: rest)) as (ext & ->).
    by eexists.
  - intros h tr [= -> <-]. split; [done|]. rewrite Hd.
    destruct (killed _); [done|]. destruct (all_returned _); [|done].
    destruct (producer_teardown_exit h (Signal SIGPIPE SIG_IGN :: rest)) as (ext & ->).
    done.
Qed.

(** C10. The first call of the producer's [main] sets SIGPIPE to be
    ignored and nothing sets it again, so the workers run with it ignored.
    In every state of every such run the process has not been killed, and
    a worker whose [send] finds the connection closed by the peer gets -1
    from it: that worker reports the failure and returns, while the
    process lives, the counter, the file and the mutex are as they were,
    and every other worker has the program counter it had and can move
    exactly when it could before. *)
Theorem producer_sigpipe_ignored pf e :
  (exists rest, calls (main pf e) = Signal SIGPIPE SIG_IGN :: rest)
  /\ (forall h tr, setup e [] = (Done h, tr) ->
        disposition SIGPIPE tr SIG_DFL = SIG_IGN
        /\ globals (main pf e)
           = run pf (schedule e) (init (created h) (file h) SIG_IGN))
  /\ (forall n src s,
        reachable pf n src SIG_IGN s ->
        sigpipe s = SIG_IGN /\ killed s = false
        /\ forall t v, threads s !! t = Some (AtSend v) ->
             exists s1 s2,
               thread_step pf t Broken_pipe s = Some s1
               /\ s1 = after_send pf t v (-1) s
               /\ threads s1 = <[t := AtPerror]> (threads s)
               /\ thread_step pf t Broken_pipe s1 = Some s2
               /\ threads s2 = <[t := Returned]> (threads s)
               /\ killed s2 = false
               /\ output s2 = Send_failed t "send failed"
                                :: Send t v (send_frame (host pf) v) (-1)
                                :: output s
               /\ numbers_read s2 = numbers_read s
               /\ input_file s2 = input_file s
               /\ file_mutex s2 = file_mutex s
               /\ forall t' r, t' <> t ->
                    threads s2 !! t' = threads s !! t'
                    /\ (is_Some (thread_step pf t' r s2)
                        <-> is_Some (thread_step pf t' r s))).
Proof.
  destruct (producer_main_ignores_sigpipe pf e) as [Hfirst Hpool].
  split; [exact Hfirst|]. split; [exact Hpool|].
  intros n src s Hreach.
  destruct (producer_invariants_hold _ _ _ _ _ Hreach) as (Hd & _ & Hk).
  specialize (Hk eq_refl). split; [done|]. split; [done|].
  intros t v Hp.
  destruct (producer_broken_pipe pf s t v Hk Hd Hp)
    as (s1 & s2 & H1 & H2 & H3 & H4 & H5 & H6 & H7 & H8 & H9 & H10 & H11).
  exists s1, s2. repeat (split; [assumption|]).
  intros t' r Hne. split.
  - rewrite H5. by apply list_lookup_insert_ne.
  - eapply producer_sibling_enabled; eauto; congruence.
Qed.

Lemma producer_sigpipe_ignored_witness :
  let src := map Int [3; -1; 42; 0; 7] in
  let s := run pf0 (take 11 (round_robin 40)) (init 2 src SIG_IGN) in
  reachable pf0 2 src SIG_IGN s /\ threads s !! 0%nat = Some (AtSend 3)
  /\ sigpipe s = SIG_IGN /\ killed s = false
  /\ exists s1, thread_step pf0 0 Broken_pipe s = Some s1
                /\ threads s1 = <[0%nat := AtPerror]> (threads s).
Proof.
  intros src s.
  assert (H : reachable pf0 2 src SIG_IGN s)
    by (apply producer_reachable_run, reach_init).
  assert (Hp : threads s !! 0%nat = Some (AtSend 3)) by (vm_compute; reflexivity).
  destruct (proj2 (proj2 (producer_sigpipe_ignored pf0 env_good)) 2%nat src s H)
    as (Hd & Hk & Hsend).
  destruct (Hsend 0%nat 3 Hp) as (s1 & s2 & H1 & _ & H3 & _).
  split; [exact H|]. split; [exact Hp|]. split; [exact Hd|]. split; [exact Hk|].
  exists s1. split; [exact H1|exact H3].
Defined.










End ProducerMainFacts.

(* ===================================================================== *)
(** ** Exit codes of the two processes *)
(* ===================================================================== *)

Section ExitCodes.
Import Wire Sys.




End ExitCodes.

(* ===================================================================== *)
(** ** More about the wire format *)
(* ===================================================================== *)

Section WireMore.
Import Wire.

Lemma to_int_range z : int_range (to_int z).
Proof. unfold int_range, to_int. Z.div_mod_to_equations. lia. Qed.

Lemma to_uint32_to_int x : 0 <= x < 2 ^ 32 -> to_uint32 (to_int x) = x.
Proof. unfold to_uint32, to_int. intros H. Z.div_mod_to_equations. lia. Qed.

Lemma byte_of_Z_unsigned z b : z mod 2 ^ 8 = byte.unsigned b -> byte.of_Z z = b.
Proof.
  intros H. apply byte.unsigned_inj. by rewrite byte.unsigned_of_Z.
Qed.

Lemma be_combine_4_range b0 b1 b2 b3 :
  0 <= be_combine 0 [b0; b1; b2; b3] < 2 ^ 32.
Proof.
  rewrite be_combine_4.
  pose proof (byte.unsigned_range b0). pose proof (byte.unsigned_range b1).
  pose proof (byte.unsigned_range b2). pose proof (byte.unsigned_range b3). lia.
Qed.

Lemma be_bytes_combine b0 b1 b2 b3 :
  be_bytes (be_combine 0 [b0; b1; b2; b3]) = [b0; b1; b2; b3].
Proof.
  rewrite be_combine_4. unfold be_bytes.
  pose proof (byte.unsigned_range b0). pose proof (byte.unsigned_range b1).
  pose proof (byte.unsigned_range b2). pose proof (byte.unsigned_range b3).
  repeat (apply (f_equal2 cons);
    [apply byte_of_Z_unsigned; rewrite ?Z.shiftr_div_pow2 by lia;
     Z.div_mod_to_equations; lia|]).
  reflexivity.
Qed.

(** X1. Whatever four bytes arrive, the integer the consumer makes of them
    fits an [int], and encoding that integer as the producer does gives the
    same four bytes back, on hosts of either byte order: decoding loses
    nothing. *)
Theorem frame_decode_then_encode h1 h2 buf :
  length buf = 4%nat ->
  int_range (recv_value h1 buf) /\ send_frame h2 (recv_value h1 buf) = buf.
Proof.
  intros Hlen. split; [apply to_int_range|].
  destruct buf as [|b0 [|b1 [|b2 [|b3 [|]]]]]; try discriminate.
  rewrite recv_value_big_endian, send_frame_big_endian.
  rewrite to_uint32_to_int by apply be_combine_4_range.
  apply be_bytes_combine.
Qed.

Lemma frame_decode_then_encode_witness :
  let buf := [Byte.x80; Byte.x00; Byte.x00; Byte.x01] in
  length buf = 4%nat
  /\ send_frame LittleEndian (recv_value BigEndian buf) = buf.
Proof.
  intros buf. assert (H : length buf = 4%nat) by reflexivity.
  split; [exact H|].
  exact (proj2 (frame_decode_then_encode BigEndian LittleEndian buf H)).
Defined.

(** X2. A frame has four bytes and is the same on a little-endian and on
    a big-endian host; and two integers that fit an [int] and have the same
    frame are the same integer. *)
Theorem send_frame_distinct h1 h2 v1 v2 :
  int_range v1 -> int_range v2 ->
  length (send_frame h1 v1) = 4%nat
  /\ send_frame h1 v1 = send_frame h2 v1
  /\ (send_frame h1 v1 = send_frame h2 v2 -> v1 = v2).
Proof.
  intros H1 H2. split; [by rewrite send_frame_big_endian|].
  split; [by rewrite !send_frame_big_endian|].
  intros E. rewrite <- (recv_send_frame h1 h1 v1 H1), E.
  by apply recv_send_frame.
Qed.

Lemma send_frame_distinct_witness :
  int_range (-1) /\ int_range 255
  /\ send_frame LittleEndian (-1) = send_frame BigEndian (-1).
Proof.
  assert (H1 : int_range (-1)) by (unfold int_range; lia).
  assert (H2 : int_range 255) by (unfold int_range; lia).
  split; [exact H1|]. split; [exact H2|].
  exact (proj1 (proj2 (send_frame_distinct LittleEndian BigEndian (-1) 255 H1 H2))).
Defined.

Lemma uint32_bytes x :
  0 <= x < 2 ^ 32 ->
  exists a b c d, 0 <= a < 256 /\ 0 <= b < 256 /\ 0 <= c < 256 /\ 0 <= d < 256
                  /\ x = a * 2 ^ 24 + b * 2 ^ 16 + c * 2 ^ 8 + d.
Proof.
  intros H.
  exists (x / 2 ^ 24), ((x / 2 ^ 16) mod 2 ^ 8), ((x / 2 ^ 8) mod 2 ^ 8), (x mod 2 ^ 8).
  Z.div_mod_to_equations. lia.
Qed.

Lemma bswap_32_of_bytes a b c d :
  0 <= a < 256 -> 0 <= b < 256 -> 0 <= c < 256 -> 0 <= d < 256 ->
  bswap_32 (a * 2 ^ 24 + b * 2 ^ 16 + c * 2 ^ 8 + d)
  = d * 2 ^ 24 + c * 2 ^ 16 + b * 2 ^ 8 + a.
Proof.
  intros Ha Hb Hc Hd. rewrite bswap_32_arith. Z.div_mod_to_equations. lia.
Qed.

(** X3. On a 32-bit unsigned value [htonl] gives a 32-bit unsigned value
    and [ntohl] undoes it, on either kind of host. *)
Theorem ntohl_htonl host x :
  0 <= x < 2 ^ 32 ->
  0 <= htonl host x < 2 ^ 32 /\ ntohl host (htonl host x) = x.
Proof.
  intros H. destruct host; cbn [htonl ntohl]; [|done].
  destruct (uint32_bytes x H) as (a & b & c & d & Ha & Hb & Hc & Hd & ->).
  rewrite !bswap_32_of_bytes by done. lia.
Qed.

Lemma ntohl_htonl_witness :
  0 <= 305419896 < 2 ^ 32
  /\ ntohl LittleEndian (htonl LittleEndian 305419896) = 305419896.
Proof.
  assert (H : 0 <= 305419896 < 2 ^ 32) by lia.
  split; [exact H|]. exact (proj2 (ntohl_htonl LittleEndian 305419896 H)).
Defined.

End WireMore.

(* ===================================================================== *)
(** ** More about the consumer workers *)
(* ===================================================================== *)

Section ConsumerMore.
Import Wire Sys Consumer.

#[local] Arguments Consumer.rank : simpl never.

Lemma short_recv_log e out : short_recv out = true -> short_recv (e :: out) = true.
Proof. intros H. destruct e; cbn; try done. rewrite H. apply orb_true_r. Qed.

Lemma take_store (l : list Z) i v :
  0 <= i -> (Z.to_nat i < length l)%nat ->
  take (Z.to_nat (i + 1)) (<[Z.to_nat i := v]> l) = take (Z.to_nat i) l ++ [v].
Proof.
  intros Hi Hlen. replace (Z.to_nat (i + 1)) with (S (Z.to_nat i)) by lia.
  rewrite (take_S_r _ _ v) by by apply list_lookup_insert_eq.
  by rewrite take_insert_ge by lia.
Qed.

Lemma consumer_order_init pf n : order_inv pf (init n).
Proof. constructor; cbn; try done. intros t p H. apply lookup_replicate_pc in H. by subst. Qed.

Lemma consumer_order_step pf t r s s' :
  inv pf s -> order_inv pf s -> thread_step pf t r s = Some s' -> order_inv pf s'.
Proof.
  intros I [Hh Ha Hpr Hpid Hex] Hstep.
  pose proof I as [Hi Hl Hb Ho Hr _ _ _].
  unfold thread_step in Hstep.
  destruct (threads s !! t) as [p|] eqn:Hp; [|done].
  assert (Hlt : (t < length (threads s))%nat) by by eapply lookup_lt_Some.
  assert (Hme : holds p = true -> array_mutex s = Some t) by eauto.
  assert (Hleave : leaving p = true ->
            MAX_DATA <= data_index s \/ short_recv (output s) = true) by eauto.
  assert (Hmine : forall p', holds p = true -> holds p' = true ->
            forall t0, array_mutex s = Some t0 ->
            exists q, <[t := p']> (threads s) !! t0 = Some q /\ holds q = true).
  { intros p' Hhp Hhp' t0 Hm0. rewrite Hme in Hm0 by done. injection Hm0 as <-.
    exists p'. split; [by apply list_lookup_insert_eq|done]. }
  unfold in_hand, unreported in *.
  destruct p.
  - (* pthread_mutex_lock *)
    destruct (array_mutex s) as [o|] eqn:Hm; simplify_eq.
    constructor; unfold in_hand, unreported; cbn; rewrite ?list_lookup_insert_eq by done; try done.
    + intros t0 [= <-]. exists AtCheck. by rewrite list_lookup_insert_eq.
    + intros; split_pc; eauto.
  - (* the test of line 54 *)
    simplify_eq. rewrite Hme, Hp in * by done.
    destruct (Z.leb_spec MAX_DATA (data_index s)); constructor; unfold in_hand, unreported; cbn;
      rewrite ?Hme, ?list_lookup_insert_eq by done; try done;
      try (by apply Hmine); intros; split_pc; eauto.
  - (* recv *)
    destruct (recv_ok r.1 r.2) eqn:Hok; simplify_eq. rewrite Hme, Hp in * by done.
    rewrite app_nil_r in Ha, Hpr.
    assert (Hothers : forall t0 p0, t0 <> t -> threads s !! t0 = Some p0 ->
              leaving p0 = true ->
              MAX_DATA <= data_index s
              \/ short_recv (Recv t r.1 r.2 :: output s) = true).
    { intros t0 p0 _ H0 H1. destruct (Hex _ _ H0 H1) as [?|Hs]; [by left|right].
      by apply short_recv_log. }
    destruct (r.1 =? 4) eqn:E4.
    + apply Z.eqb_eq in E4. rewrite E4 in *. cbn [Z.eqb Z.ltb Z.compare negb Pos.eqb].
      constructor; unfold in_hand, unreported; cbn;
        rewrite ?Hme, ?list_lookup_insert_eq by done; try done.
      * by apply Hmine.
      * by rewrite map_app, Ha.
      * by rewrite app_nil_r.
      * by intros ? ? ? [?|?]; [done|eauto].
      * intros; split_pc. eauto.
    + assert (Hshort : short_recv (Recv t r.1 r.2 :: output s) = true)
        by (cbn; by rewrite E4).
      destruct (r.1 =? 0); [|destruct (r.1 <? 0)]; cbn [negb];
        (constructor; unfold in_hand, unreported; cbn;
         rewrite ?Hme, ?list_lookup_insert_eq, ?E4, ?app_nil_r by done; try done;
         [by apply Hmine
         |by intros ? ? ? [?|?]; [done|eauto]
         |intros; split_pc; [by right|eauto]]).
  - (* perror *)
    simplify_eq. rewrite Hme, Hp in * by done.
    constructor; unfold in_hand, unreported; cbn; rewrite ?Hme, ?list_lookup_insert_eq by done; try done;
      try (by apply Hmine).
    + by intros ? ? ? [?|?]; [done|eauto].
    + intros; split_pc; eauto.
  - (* fprintf *)
    simplify_eq. rewrite Hme, Hp in * by done.
    constructor; unfold in_hand, unreported; cbn; rewrite ?Hme, ?list_lookup_insert_eq by done; try done;
      try (by apply Hmine).
    + by intros ? ? ? [?|?]; [done|eauto].
    + intros; split_pc; eauto.
  - (* ntohl *)
    simplify_eq. rewrite Hme, Hp in * by done.
    constructor; unfold in_hand, unreported; cbn; rewrite ?Hme, ?list_lookup_insert_eq by done; try done;
      try (by apply Hmine).
    intros; split_pc; eauto.
  - (* the store *)
    simplify_eq. rewrite Hme, Hp in * by done.
    assert (Hrange : 0 <= data_index s < MAX_DATA).
    { split; [lia|]. by apply (Hr t (AtStore value)). }
    rewrite store_in_range by done.
    assert (Hlen : (Z.to_nat (data_index s) < length (data_array s))%nat).
    { rewrite Hl. unfold MAX_DATA in *. lia. }
    constructor; unfold in_hand, unreported; cbn; rewrite ?Hme, ?list_lookup_insert_eq by done; try done;
      try (by apply Hmine).
    + rewrite take_store by (done || lia). by rewrite app_nil_r.
    + rewrite take_store by (done || lia). by rewrite app_nil_r in Hpr; rewrite Hpr.
    + intros; split_pc. destruct (Hex _ _ H H0) as [?|?]; [left; lia|by right].
  - (* printf *)
    simplify_eq. rewrite Hme, Hp in * by done.
    constructor; unfold in_hand, unreported; cbn; rewrite ?Hme, ?list_lookup_insert_eq by done; try done;
      try (by apply Hmine).
    + by rewrite app_nil_r.
    + intros pid t0 v [[= <- _ _]|Hin]; [done|eauto].
    + intros; split_pc; eauto.
  - (* pthread_mutex_unlock *)
    simplify_eq. rewrite Hme, Hp in * by done.
    constructor; unfold in_hand, unreported; cbn; try done. intros; split_pc; eauto.
  - (* pthread_mutex_unlock; break *)
    simplify_eq. rewrite Hme, Hp in * by done.
    constructor; unfold in_hand, unreported; cbn; try done. intros; split_pc; eauto.
  - done.
Qed.

Lemma consumer_order_reachable pf n s :
  reachable pf n s -> inv pf s /\ order_inv pf s.
Proof.
  induction 1 as [|s t r s' _ [IH1 IH2] Hstep].
  - split; [apply consumer_inv_init|apply consumer_order_init].
  - split; [by eapply consumer_inv_step|by eapply consumer_order_step].
Qed.

Lemma consumer_all_returned_lookup (l : list pc) t p :
  forallb is_returned l = true -> l !! t = Some p -> p = Returned.
Proof.
  revert t. induction l as [|q l IH]; intros [|t]; cbn; try done.
  - intros [Hq _]%andb_prop [= <-]. by destruct q.
  - intros [_ Hl]%andb_prop. by apply IH.
Qed.

Lemma consumer_not_all_returned (l : list pc) :
  forallb is_returned l = false ->
  exists t p, l !! t = Some p /\ is_returned p = false.
Proof.
  induction l as [|p l IH]; [done|]. cbn.
  destruct (is_returned p) eqn:E; cbn.
  - intros (t & q & Hq & Hr)%IH. by exists (S t), q.
  - intros _. by exists 0%nat, p.
Qed.

(** X4. In every state of every run of the consumer workers,
    [array_mutex] names a worker exactly when that worker is between its
    lock and its unlock; so at most one worker is there, and once all
    workers have returned the mutex is free. *)
Theorem consumer_mutex_discipline pf n s :
  reachable pf n s ->
  (forall t p, threads s !! t = Some p ->
               (holds p = true <-> array_mutex s = Some t))
  /\ (forall t1 t2 p1 p2,
        threads s !! t1 = Some p1 -> threads s !! t2 = Some p2 ->
        holds p1 = true -> holds p2 = true -> t1 = t2)
  /\ (all_returned s = true -> array_mutex s = None).
Proof.
  intros H. destruct (consumer_order_reachable _ _ _ H) as [I O].
  split; [|split].
  - intros t p Hp. split; [by apply (inv_owner _ _ I)|].
    intros Hm. destruct (ord_held _ _ O t Hm) as (q & Hq & Hh). congruence.
  - intros t1 t2 p1 p2. by apply (consumer_exclusive pf).
  - intros Hall. destruct (array_mutex s) as [t|] eqn:Hm; [|done].
    destruct (ord_held _ _ O t Hm) as (q & Hq & Hh).
    by rewrite (consumer_all_returned_lookup _ _ _ Hall Hq) in Hh.
Qed.

Lemma consumer_mutex_discipline_witness :
  let s := run pf0 (take 3 sched0) (init 2) in
  reachable pf0 2 s
  /\ (all_returned s = true -> array_mutex s = None).
Proof.
  intros s.
  assert (H : reachable pf0 2 s) by (apply reachable_run, reach_init).
  split; [exact H|].
  exact (proj2 (proj2 (consumer_mutex_discipline pf0 2 s H))).
Defined.

(** X5. The buffer only grows: along every run from a reachable state the
    write index never goes down and the slots below it are never written
    again. *)
Theorem consumer_buffer_append_only pf n s s' :
  reachable pf n s -> steps pf s s' ->
  data_index s <= data_index s'
  /\ forall k, (k < Z.to_nat (data_index s))%nat ->
               data_array s' !! k = data_array s !! k.
Proof.
  intros H Hsteps. apply consumer_inv_reachable in H.
  induction Hsteps as [|s t r s' s'' Hstep _ IH]; [done|].
  pose proof (consumer_inv_step _ _ _ _ _ H Hstep) as I'.
  destruct (IH I') as [Hle Hsame].
  destruct (consumer_step_buffer _ _ _ _ _ H Hstep)
    as [[Ha Hi]|(v & _ & Hr & Ha & Hi)].
  - rewrite <- Ha, <- Hi. done.
  - split; [lia|]. intros k Hk. rewrite Hsame by lia.
    rewrite Ha. apply list_lookup_insert_ne. lia.
Qed.

Lemma consumer_buffer_append_only_witness :
  let s := run pf0 (take 6 sched0) (init 2) in
  let s' := run pf0 sched0 (init 2) in
  reachable pf0 2 s /\ steps pf0 s s'
  /\ data_array s' !! 0%nat = data_array s !! 0%nat.
Proof.
  intros s s'.
  assert (H : reachable pf0 2 s) by (apply reachable_run, reach_init).
  assert (Hs : steps pf0 s s').
  { unfold s, s'.
    eapply (steps_step pf0 _ 0%nat (0, [])); [vm_compute; reflexivity|].
    eapply (steps_step pf0 _ 1%nat (0, [])); [vm_compute; reflexivity|].
    eapply (steps_step pf0 _ 1%nat (0, [])); [vm_compute; reflexivity|].
    eapply (steps_step pf0 _ 1%nat (0, [])); [vm_compute; reflexivity|].
    eapply (steps_step pf0 _ 1%nat (0, [])); [vm_compute; reflexivity|].
    match goal with |- steps _ ?a ?b => replace b with a by (vm_compute; reflexivity) end.
    apply steps_refl. }
  split; [exact H|]. split; [exact Hs|].
  apply (proj2 (consumer_buffer_append_only pf0 2 s s' H Hs)).
  vm_compute. lia.
Defined.

Lemma in_hand_free pf s : array_mutex s = None -> in_hand pf s = [].
Proof. intros H. unfold in_hand. by rewrite H. Qed.

Lemma unreported_free s : array_mutex s = None -> unreported s = [].
Proof. intros H. unfold unreported. by rewrite H. Qed.

(** X6. The buffer holds the complete frames in the order they arrived:
    in every state of every run, the integers decoded from the complete
    frames received so far, oldest first, are the slots below the write
    index followed by the one integer, if any, that the worker holding the
    mutex has received and not yet stored.  So while the mutex is free the
    occupied part of the buffer is the decoded frames, none lost, none
    twice. *)
Theorem consumer_buffer_in_arrival_order pf n s :
  reachable pf n s ->
  map (recv_value (host pf)) (frames (output s))
  = take (Z.to_nat (data_index s)) (data_array s) ++ in_hand pf s
  /\ (length (in_hand pf s) <= 1)%nat
  /\ (array_mutex s = None ->
      take (Z.to_nat (data_index s)) (data_array s)
      = map (recv_value (host pf)) (frames (output s))
      /\ data_index s = Z.of_nat (length (frames (output s)))).
Proof.
  intros H. destruct (consumer_order_reachable _ _ _ H) as [I O].
  pose proof (ord_arrival _ _ O) as Ha.
  split; [exact Ha|]. split.
  - unfold in_hand. repeat case_match; cbn; lia.
  - intros Hm. rewrite (in_hand_free pf s Hm), app_nil_r in Ha.
    split; [done|].
    apply (f_equal length) in Ha. rewrite length_map, length_take in Ha.
    pose proof (inv_index _ _ I). pose proof (inv_length _ _ I).
    unfold MAX_DATA in *. lia.
Qed.

Lemma consumer_buffer_in_arrival_order_witness :
  let s := run pf0 sched0 (init 2) in
  reachable pf0 2 s /\ array_mutex s = None
  /\ take (Z.to_nat (data_index s)) (data_array s)
     = map (recv_value (host pf0)) (frames (output s)).
Proof.
  intros s.
  assert (H : reachable pf0 2 s) by (apply reachable_run, reach_init).
  assert (Hm : array_mutex s = None) by (vm_compute; reflexivity).
  split; [exact H|]. split; [exact Hm|].
  exact (proj1 (proj2 (proj2 (consumer_buffer_in_arrival_order pf0 2 s H)) Hm)).
Defined.

(** X7. Every insertion is reported once, in the order of the buffer and
    with the process id of the consumer: in every state of every run the
    values of the status lines printed so far, oldest first, followed by
    the one value stored and not yet reported, are the slots below the
    write index. *)
Theorem consumer_reports_each_insertion pf n s :
  reachable pf n s ->
  printed (output s) ++ unreported s
  = take (Z.to_nat (data_index s)) (data_array s)
  /\ (forall pid t v, In (Inserted pid t v) (output s) -> pid = getpid pf)
  /\ (array_mutex s = None ->
      printed (output s) = take (Z.to_nat (data_index s)) (data_array s)).
Proof.
  intros H. destruct (consumer_order_reachable _ _ _ H) as [I O].
  pose proof (ord_printed _ _ O) as Hp.
  split; [exact Hp|]. split; [apply (ord_pid _ _ O)|].
  intros Hm. by rewrite (unreported_free s Hm), app_nil_r in Hp.
Qed.

Lemma consumer_reports_each_insertion_witness :
  let s := run pf0 sched0 (init 2) in
  reachable pf0 2 s /\ array_mutex s = None
  /\ printed (output s) = take (Z.to_nat (data_index s)) (data_array s).
Proof.
  intros s.
  assert (H : reachable pf0 2 s) by (apply reachable_run, reach_init).
  assert (Hm : array_mutex s = None) by (vm_compute; reflexivity).
  split; [exact H|]. split; [exact Hm|].
  exact (proj2 (proj2 (consumer_reports_each_insertion pf0 2 s H)) Hm).
Defined.

(** X8. Sending composed with receiving: if the complete frames the
    consumer has received are the frames of the integers [values], in that
    order, each fitting an [int], and no worker holds the mutex, then the
    occupied part of the buffer is [values], in that order. *)
Theorem consumer_stores_values_sent pf n s h (values : list Z) :
  reachable pf n s -> Forall int_range values ->
  frames (output s) = map (send_frame h) values ->
  array_mutex s = None ->
  take (Z.to_nat (data_index s)) (data_array s) = values
  /\ data_index s = Z.of_nat (length values).
Proof.
  intros H Hrange Hframes Hm.
  destruct (consumer_order_reachable _ _ _ H) as [I O].
  pose proof (ord_arrival _ _ O) as Ha.
  rewrite (in_hand_free pf s Hm), app_nil_r, Hframes in Ha.
  assert (Hv : map (recv_value (host pf)) (map (send_frame h) values) = values).
  { clear -Hrange. induction Hrange as [|v vs Hv _ IH]; [done|].
    cbn. by rewrite recv_send_frame, IH. }
  rewrite Hv in Ha. split; [done|].
  apply (f_equal length) in Ha. rewrite length_take in Ha.
  pose proof (inv_index _ _ I). pose proof (inv_length _ _ I).
  unfold MAX_DATA in *. lia.
Qed.

Lemma consumer_stores_values_sent_witness :
  let s := run pf0 sched0 (init 2) in
  reachable pf0 2 s /\ Forall int_range [-7]
  /\ frames (output s) = map (send_frame LittleEndian) [-7]
  /\ array_mutex s = None
  /\ take (Z.to_nat (data_index s)) (data_array s) = [-7].
Proof.
  intros s.
  assert (H : reachable pf0 2 s) by (apply reachable_run, reach_init).
  assert (Hv : Forall int_range [-7]).
  { constructor; [unfold int_range; lia|constructor]. }
  assert (Hf : frames (output s) = map (send_frame LittleEndian) [-7])
    by (vm_compute; reflexivity).
  assert (Hm : array_mutex s = None) by (vm_compute; reflexivity).
  split; [exact H|]. split; [exact Hv|]. split; [exact Hf|]. split; [exact Hm|].
  exact (proj1 (consumer_stores_values_sent pf0 2 s LittleEndian [-7] H Hv Hf Hm)).
Defined.

Lemma consumer_rank_insert (l : list pc) t p p' :
  l !! t = Some p ->
  (list_sum (map rank (<[t := p']> l)) + rank p
   = list_sum (map rank l) + rank p')%nat.
Proof.
  revert t. induction l as [|x l IH]; intros [|t] H; try done.
  - injection H as ->. change (<[0%nat := p']> (p :: l)) with (p' :: l).
    rewrite !map_cons. unfold list_sum. cbn [fold_right]. lia.
  - change (<[S t := p']> (x :: l)) with (x :: <[t := p']> l).
    rewrite !map_cons. change (l !! t = Some p) in H.
    specialize (IH t H). unfold list_sum in *. cbn [fold_right]. lia.
Qed.

Lemma consumer_rank_replicate n : list_sum (map rank (replicate n AtLock)) = (7 * n)%nat.
Proof.
  induction n as [|n IH]; [done|]. cbn [replicate map]. unfold list_sum in *.
  cbn [fold_right]. rewrite IH. unfold rank. lia.
Qed.

(** Every statement lowers [measure]. *)
Lemma consumer_step_measure pf t r s s' :
  inv pf s -> thread_step pf t r s = Some s' -> (measure s' < measure s)%nat.
Proof.
  intros I Hstep. unfold thread_step in Hstep.
  destruct (threads s !! t) as [p|] eqn:Hp; [|done].
  assert (Hroom : checked p = true -> 0 <= data_index s < MAX_DATA).
  { intros Hc. pose proof (inv_index _ _ I). pose proof (inv_room _ _ I t p Hp Hc). lia. }
  destruct p; repeat case_match; simplify_eq;
    rewrite ?store_in_range by (by apply Hroom); unfold measure;
    cbn [data_index threads set_pc set_mutex log]; try done;
    match goal with
    | |- context [<[t := ?p']> (threads s)] =>
        pose proof (consumer_rank_insert (threads s) t _ p' Hp) as Hrank;
        set (a := list_sum (map rank (<[t := p']> (threads s)))) in *;
        set (b := list_sum (map rank (threads s))) in *
    end;
    unfold rank in Hrank; try lia.
  specialize (Hroom eq_refl). unfold MAX_DATA in *. lia.
Qed.

(** X9. The consumer workers cannot run for ever: whatever the schedule
    and whatever [recv] returns, a pool of [n] workers executes at most
    700 + 7 n statements; and it cannot get stuck: in every state of every
    run in which some worker has not returned, some worker can execute its
    next statement. *)
Theorem consumer_pool_terminates pf n :
  (forall sched, (moves pf sched (init n) <= 700 + 7 * n)%nat)
  /\ (forall s, reachable pf n s -> all_returned s = false ->
        exists t s', thread_step pf t (0, []) s = Some s').
Proof.
  split.
  - intros sched.
    assert (Hgen : forall s, inv pf s -> (moves pf sched s <= measure s)%nat).
    { induction sched as [|[t r] sched IH]; intros s I; cbn [moves]; [lia|].
      destruct (thread_step pf t r s) as [s'|] eqn:Hstep; [|by apply IH].
      pose proof (consumer_step_measure _ _ _ _ _ I Hstep).
      pose proof (IH s' (consumer_inv_step _ _ _ _ _ I Hstep)). lia. }
    specialize (Hgen (init n) (consumer_inv_init pf n)).
    unfold measure in Hgen. cbn [init data_index threads] in Hgen.
    rewrite consumer_rank_replicate in Hgen.
    change (Z.to_nat (MAX_DATA - 0)) with 100%nat in Hgen. lia.
  - intros s H Hall. destruct (consumer_order_reachable _ _ _ H) as [I O].
    unfold thread_step.
    destruct (array_mutex s) as [t0|] eqn:Hm.
    + destruct (ord_held _ _ O t0 Hm) as (q & Hq & Hh). exists t0.
      rewrite Hq. destruct q; try done; cbn; eauto.
    + destruct (consumer_not_all_returned _ Hall) as (t & p & Hp & Hr). exists t.
      rewrite Hp. destruct (holds p) eqn:Hh.
      { pose proof (inv_owner _ _ I t p Hp Hh). congruence. }
      destruct p; try done; cbn; eauto.
Qed.

(** X10. Why the workers stop: in every state of every run in which all
    of at least one worker have returned, the buffer is full or some
    [recv] returned something other than a complete frame (the peer closed
    the connection, an error, a partial read); the mutex is free, and the
    occupied part of the buffer is the decoded complete frames, all of them
    reported. *)
Theorem consumer_exit_reasons pf n s :
  (0 < n)%nat -> reachable pf n s -> all_returned s = true ->
  (data_index s = MAX_DATA \/ short_recv (output s) = true)
  /\ array_mutex s = None
  /\ take (Z.to_nat (data_index s)) (data_array s)
     = map (recv_value (host pf)) (frames (output s))
  /\ printed (output s) = take (Z.to_nat (data_index s)) (data_array s).
Proof.
  intros Hn H Hall. destruct (consumer_order_reachable _ _ _ H) as [I O].
  assert (Hlen : length (threads s) = n).
  { clear -H. induction H as [|s t r s' _ IH Hstep]; [apply length_replicate|].
    unfold thread_step in Hstep.
    destruct (threads s !! t) as [p|]; [|done].
    destruct p; repeat case_match; simplify_eq; unfold store; cbn;
      repeat case_match; cbn; by rewrite ?length_insert. }
  assert (Hm : array_mutex s = None).
  { destruct (array_mutex s) as [t|] eqn:Hm; [|done].
    destruct (ord_held _ _ O t Hm) as (q & Hq & Hh).
    by rewrite (consumer_all_returned_lookup _ _ _ Hall Hq) in Hh. }
  split; [|split; [done|split]].
  - destruct (lookup_lt_is_Some_2 (threads s) 0) as [p Hp]; [lia|].
    pose proof (consumer_all_returned_lookup _ _ _ Hall Hp) as ->.
    destruct (ord_exit _ _ O 0%nat Returned Hp eq_refl) as [Hfull|Hs]; [|by right].
    left. pose proof (inv_index _ _ I). lia.
  - pose proof (ord_arrival _ _ O) as Ha.
    by rewrite (in_hand_free pf s Hm), app_nil_r in Ha.
  - pose proof (ord_printed _ _ O) as Hp.
    by rewrite (unreported_free s Hm), app_nil_r in Hp.
Qed.

Lemma consumer_exit_reasons_witness :
  let sched := sched0 ++ [(0%nat, (0, [])); (0%nat, (0, []));
                          (0%nat, (-1, [])); (0%nat, (0, [])); (0%nat, (0, []))] in
  let s := run pf0 sched (init 2) in
  (0 < 2)%nat /\ reachable pf0 2 s /\ all_returned s = true
  /\ (data_index s = MAX_DATA \/ short_recv (output s) = true).
Proof.
  intros sched s.
  assert (H0 : (0 < 2)%nat) by lia.
  assert (H : reachable pf0 2 s) by (apply reachable_run, reach_init).
  assert (Ha : all_returned s = true) by (vm_compute; reflexivity).
  split; [exact H0|]. split; [exact H|]. split; [exact Ha|].
  exact (proj1 (consumer_exit_reasons pf0 2 s H0 H Ha)).
Defined.

End ConsumerMore.

(* ===================================================================== *)
(** ** More about the producer workers *)
(* ===================================================================== *)

Section ProducerMore.
Import Wire Sys Producer.

#[local] Arguments Producer.rank : simpl never.
#[local] Arguments Producer.carried : simpl never.

(** X11. In every state of every run of the producer workers,
    [file_mutex] names a worker exactly when that worker is between its
    lock and its unlock; in particular a worker at its [send] does not
    hold the mutex, so a slow connection keeps no other worker from the
    file; and once all workers have returned the mutex is free. *)
Theorem producer_mutex_discipline pf n src disp s :
  reachable pf n src disp s ->
  (forall t p, threads s !! t = Some p ->
               (holds p = true <-> file_mutex s = Some t))
  /\ (forall t v, threads s !! t = Some (AtSend v) -> file_mutex s <> Some t)
  /\ (all_returned s = true -> file_mutex s = None).
Proof.
  intros H. apply producer_inv_reachable in H.
  assert (Hiff : forall t p, threads s !! t = Some p ->
                   (holds p = true <-> file_mutex s = Some t)).
  { intros t p Hp. split; [by apply (inv_owner _ _ H)|].
    intros Hm. destruct (inv_held _ _ H t Hm) as (q & Hq & Hh). congruence. }
  split; [exact Hiff|]. split.
  - intros t v Hp Hm. by apply (Hiff t _ Hp) in Hm.
  - intros Hall. destruct (file_mutex s) as [t|] eqn:Hm; [|done].
    destruct (inv_held _ _ H t Hm) as (q & Hq & Hh).
    by rewrite (all_returned_lookup _ _ _ Hall Hq) in Hh.
Qed.

Lemma producer_mutex_discipline_witness :
  let src := map Int [3; -1; 42; 0; 7] in
  let s := run pf0 (take 11 (round_robin 40)) (init 2 src SIG_IGN) in
  reachable pf0 2 src SIG_IGN s /\ threads s !! 0%nat = Some (AtSend 3)
  /\ file_mutex s <> Some 0%nat.
Proof.
  intros src s.
  assert (H : reachable pf0 2 src SIG_IGN s)
    by (apply producer_reachable_run, reach_init).
  assert (Hp : threads s !! 0%nat = Some (AtSend 3)) by (vm_compute; reflexivity).
  split; [exact H|]. split; [exact Hp|].
  exact (proj1 (proj2 (producer_mutex_discipline pf0 2 src SIG_IGN s H)) 0%nat 3 Hp).
Defined.



(** Every frame handed to [send] is the frame of its value. *)
Lemma producer_frames pf n src disp s t v buf k :
  reachable pf n src disp s -> In (Send t v buf k) (output s) ->
  buf = send_frame (host pf) v /\ -1 <= k <= 4.
Proof.
  induction 1 as [|s t0 r s' _ IH Hstep]; [done|].
  unfold thread_step in Hstep. destruct (killed s); [done|].
  destruct (threads s !! t0) as [p|]; [|done].
  destruct p; repeat case_match; simplify_eq; unfold after_send; cbn;
    try done; try (by intros [?|?]; [done|auto]).
  - intros [[= <- <- <- <-]|?]; [|auto]. unfold send_ok in *. split; [done|lia].
  - intros [[= <- <- <- <-]|?]; [|auto]. split; [done|lia].
  - intros [[= <- <- <- <-]|?]; [|auto]. split; [done|lia].
Qed.

Lemma ints_In v f : In v (ints f) -> In (Int v) f.
Proof.
  induction f as [|[w| |] f IH]; cbn; [done| |by auto|by auto].
  intros [->|H]; auto.
Qed.



Lemma leading_app a f : leading (map Int a ++ f) = a ++ leading f.
Proof. induction a as [|x a IH]; [done|]. cbn. by rewrite IH. Qed.

Lemma stuck_leading f : stuck f = true -> leading f = [].
Proof. by destruct f as [|[v| |] f]. Qed.

(** A stretch of the file without signs and other text is integers. *)
Lemma ints_only pre :
  has_junk pre = false -> signs pre = 0%nat -> map Int (ints pre) = pre.
Proof.
  induction pre as [|[v| |] pre IH]; cbn; try done.
  intros H1 H2. by rewrite IH.
Qed.

(** X13. What the producer reads of a file, whatever it holds.  When all
    of at least one worker have returned and no [send] has failed, the
    part of the file that was consumed holds integers and signs without
    digits and no other text; the integers in it are the values read, in
    the order of the file, [numbers_read] is their number, and the values
    whose [send] completed are these values, each once.  At most one such
    sign per worker was consumed, and reading stopped because MAX_DATA =
    100 values were read, or the file is at its end or at text that is
    neither an integer nor a sign, or every worker has consumed a sign.
    For a file without such signs the values read are the integers at the
    head of the file, at most the first 100 of them, and the file is
    positioned just after them. *)
Theorem producer_file_consumption pf n src disp s :
  (0 < n)%nat -> reachable pf n src disp s ->
  all_returned s = true -> no_send_failure (output s) = true ->
  exists pre,
    pre ++ input_file s = src
    /\ has_junk pre = false
    /\ scanned (output s) = ints pre
    /\ numbers_read s = Z.of_nat (length (ints pre))
    /\ sent (output s) ≡ₚ ints pre
    /\ (signs pre <= n)%nat
    /\ (numbers_read s = 100 \/ stuck (input_file s) = true \/ signs pre = n)
    /\ (signs src = 0%nat ->
        ints pre = take 100 (leading src)
        /\ map Int (take 100 (leading src)) ++ input_file s = src).
Proof.
  intros Hn Hreach Hall Hsend.
  pose proof (producer_inv_reachable _ _ _ _ _ Hreach) as I.
  destruct (producer_invariants_hold _ _ _ _ _ Hreach) as (_ & Hlen & _).
  unfold all_returned in Hall.
  pose proof (inv_count _ _ I) as Hc.
  pose proof (inv_pending _ _ I) as Hpen.
  pose proof (inv_source _ _ I) as Hsrc.
  pose proof (inv_scanned _ _ I) as Hscan.
  pose proof (inv_clean _ _ I) as Hclean.
  pose proof (inv_signs _ _ I) as Hsig.
  pose proof (departed_all _ Hall) as Hdep. rewrite Hlen in Hdep.
  set (pre := consumed src (input_file s)) in *.
  assert (Hpend : pending s = 0).
  { unfold pending. destruct (file_mutex s) as [t0|]; [|done].
    destruct (threads s !! t0) as [q|] eqn:Hq; [|done].
    by rewrite (all_returned_lookup _ _ _ Hall Hq). }
  assert (Hstop : numbers_read s = 100 \/ stuck (input_file s) = true
                  \/ signs pre = n).
  { destruct (inv_exit _ _ I) as [Hd|[Hfull|[Hst|Hfail]]]; [| | |congruence].
    - right; right. fold pre in Hd. lia.
    - left. unfold MAX_DATA in *. lia.
    - by right; left. }
  exists pre. split; [done|]. split; [done|]. split; [done|].
  split; [rewrite Hscan; lia|]. split.
  { rewrite Hscan, sent_offered by done.
    rewrite <- (inv_offered _ _ I), (returned_carry _ Hall). by rewrite app_nil_r. }
  split; [lia|]. split; [done|].
  intros Hfree.
  assert (Hpre0 : signs pre = 0%nat).
  { rewrite <- Hsrc, signs_app in Hfree. lia. }
  pose proof (ints_only _ Hclean Hpre0) as Hints.
  assert (Hlead : leading src = ints pre ++ leading (input_file s)).
  { rewrite <- Hsrc at 1. rewrite <- Hints at 1. apply leading_app. }
  assert (Htake : ints pre = take 100 (leading src)).
  { rewrite Hlead. rewrite <- Hscan in Hpen. unfold MAX_DATA in *.
    destruct Hstop as [Hfull|[Hst|Hall']]; [| |lia].
    - rewrite take_app_le by lia. rewrite take_ge by lia. done.
    - rewrite (stuck_leading _ Hst), app_nil_r, take_ge by lia. done. }
  split; [done|]. rewrite <- Htake, Hints. done.
Qed.

Lemma producer_file_consumption_witness :
  let src := [Int 1; Sign; Int 2; Int 3] in
  let s := run pf0 (round_robin 40) (init 2 src SIG_IGN) in
  (0 < 2)%nat /\ reachable pf0 2 src SIG_IGN s
  /\ all_returned s = true /\ no_send_failure (output s) = true
  /\ scanned (output s) = [1; 2; 3] /\ numbers_read s = 3 /\ input_file s = []
  /\ exists pre, pre ++ input_file s = src /\ scanned (output s) = ints pre.
Proof.
  intros src s.
  assert (H0 : (0 < 2)%nat) by lia.
  assert (H : reachable pf0 2 src SIG_IGN s)
    by (apply producer_reachable_run, reach_init).
  assert (Ha : all_returned s = true) by (vm_compute; reflexivity).
  assert (Hf : no_send_failure (output s) = true) by (vm_compute; reflexivity).
  assert (Hs : scanned (output s) = [1; 2; 3]) by (vm_compute; reflexivity).
  assert (Hr : numbers_read s = 3) by (vm_compute; reflexivity).
  assert (Hi : input_file s = []) by (vm_compute; reflexivity).
  destruct (producer_file_consumption pf0 2 src SIG_IGN s H0 H Ha Hf)
    as (pre & H1 & _ & H3 & _).
  split; [exact H0|]. split; [exact H|]. split; [exact Ha|]. split; [exact Hf|].
  split; [exact Hs|]. split; [exact Hr|]. split; [exact Hi|].
  exists pre. split; [exact H1|exact H3].
Defined.

Lemma producer_rank_replicate n :
  list_sum (map rank (replicate n AtLock)) = (10 * n)%nat.
Proof.
  induction n as [|n IH]; [done|]. cbn [replicate map]. unfold list_sum in *.
  cbn [fold_right]. rewrite IH. unfold rank. lia.
Qed.

Lemma producer_moves_killed pf sched s : killed s = true -> moves pf sched s = 0%nat.
Proof.
  intros Hk. induction sched as [|[t r] sched IH]; [done|].
  cbn [moves]. unfold thread_step. by rewrite Hk.
Qed.

(** X14. The producer workers cannot run for ever and cannot get stuck.
    Whatever the schedule, the results of [send] and the disposition of
    SIGPIPE, a pool of [n] workers on a file of [m] items executes at most
    7 m + 10 n + 1 statements; and in every state of every run in which
    the process lives and some worker has not returned, some worker can
    execute its next statement. *)
Theorem producer_pool_terminates pf n src disp :
  (forall sched,
     (moves pf sched (init n src disp) <= 7 * length src + 10 * n + 1)%nat)
  /\ (forall s, reachable pf n src disp s -> killed s = false ->
        all_returned s = false ->
        exists t s', thread_step pf t (Returns 4) s = Some s').
Proof.
  split.
  - intros sched.
    assert (Hgen : forall s, (moves pf sched s <= measure s + 1)%nat).
    { induction sched as [|[t r] sched IH]; intros s; cbn [moves]; [lia|].
      destruct (thread_step pf t r s) as [s'|] eqn:Hstep; [|by apply IH].
      destruct (killed s') eqn:Hk.
      - rewrite producer_moves_killed by done. lia.
      - pose proof (producer_step_measure _ _ _ _ _ Hstep Hk).
        specialize (IH s'). lia. }
    specialize (Hgen (init n src disp)).
    unfold measure in Hgen. cbn [init input_file threads] in Hgen.
    rewrite producer_rank_replicate in Hgen. lia.
  - intros s H Hk Hall. apply producer_inv_reachable in H.
    by eapply producer_progress.
Qed.

End ProducerMore.

(* ===================================================================== *)
(** ** More about the two [main] functions *)
(* ===================================================================== *)

Section MainMore.
Import Wire Sys.

Lemma create_loop_from ret fuel i tr :
  exists n,
    create_loop ret fuel i i tr
    = (Done (i + n)%nat,
       tr ++ map Pthread_create (seq i n)
          ++ (if (n <? fuel)%nat
              then [Pthread_create (i + n); Perror "pthread_create"] else []))
    /\ (n <= fuel)%nat
    /\ (forall j, (i <= j < i + n)%nat -> ret j = 0)
    /\ ((n < fuel)%nat -> ret (i + n)%nat <> 0).
Proof.
  revert i tr. induction fuel as [|fuel IH]; intros i tr.
  - exists 0%nat. cbn. rewrite Nat.add_0_r, app_nil_r.
    split; [done|]. split; [lia|]. split; intros; lia.
  - cbn [create_loop]. unfold_M.
    destruct (Z.eqb_spec (ret i) 0) as [E|E]; cbn [negb].
    + destruct (IH (S i) (tr ++ [Pthread_create i])) as (n & Heq & Hn & Hok & Hfail).
      exists (S n). rewrite Heq.
      replace (i + S n)%nat with (S i + n)%nat by lia.
      split; [|split; [lia|split]].
      * f_equal. rewrite <- !app_assoc. cbn [seq map app].
        by change (S n <? S fuel)%nat with (n <? fuel)%nat.
      * intros j Hj. destruct (decide (j = i)) as [->|]; [done|]. apply Hok. lia.
      * intros Hlt. apply Hfail. lia.
    + exists 0%nat. cbn. rewrite Nat.add_0_r, <- !app_assoc.
      split; [done|]. split; [lia|]. split; [intros; lia|done].
Qed.

Lemma join_loop_from fuel i tr :
  join_loop fuel i tr = (Done tt, tr ++ map Pthread_join (seq i fuel)).
Proof.
  revert i tr. induction fuel as [|fuel IH]; intros i tr.
  - cbn. by rewrite app_nil_r.
  - cbn [join_loop]. unfold_M. rewrite IH, <- app_assoc. done.
Qed.

(** X15. Creating and joining the workers, as both programs do it.  The
    workers created are those before the first [pthread_create] that
    fails, or all [fuel] of them; after a failure the loop reports it and
    tries no further one; and the join loop then waits for exactly the
    workers created, in the order of their creation. *)
Theorem thread_loops ret fuel tr :
  exists n,
    create_loop ret fuel 0 0 tr
    = (Done n,
       tr ++ map Pthread_create (seq 0 n)
          ++ (if (n <? fuel)%nat
              then [Pthread_create n; Perror "pthread_create"] else []))
    /\ (n <= fuel)%nat
    /\ (forall j, (j < n)%nat -> ret j = 0)
    /\ ((n < fuel)%nat -> ret n <> 0)
    /\ forall tr', join_loop n 0 tr' = (Done tt, tr' ++ map Pthread_join (seq 0 n)).
Proof.
  destruct (create_loop_from ret fuel 0 tr) as (n & Heq & Hn & Hok & Hfail).
  exists n. cbn [Nat.add] in *.
  split; [exact Heq|]. split; [exact Hn|]. split; [intros; apply Hok; lia|].
  split; [exact Hfail|]. intros tr'. apply join_loop_from.
Qed.

#[local] Arguments Sys.create_loop : simpl never.
#[local] Arguments Sys.join_loop : simpl never.

Lemma filter_map_none {A : Type} (p : call -> bool) (f : A -> call) (l : list A) :
  (forall x, p (f x) = false) -> List.filter p (map f l) = [].
Proof.
  intros H. induction l as [|x l IH]; [done|]. cbn. by rewrite H.
Qed.

(** X16. The descriptors of the consumer.  Whenever [main] of the
    consumer exits, it has closed the listening socket exactly once if
    [socket] gave it one, and after that the accepted connection exactly
    once if [accept] gave it one, and nothing else; and it creates workers
    only after every step of the setup, [accept] included, has
    succeeded. *)
Theorem consumer_main_descriptors pf e code :
  Consumer.exit_status (Consumer.main pf e) = Exited code ->
  List.filter is_close (Consumer.calls (Consumer.main pf e))
  = (if Consumer.socket_ret e <? 0 then []
     else if (Consumer.setsockopt_ret e <? 0) || (Consumer.bind_ret e <? 0)
             || (Consumer.listen_ret e <? 0) || (Consumer.accept_ret e <? 0)
          then [Close (Consumer.socket_ret e)]
          else [Close (Consumer.socket_ret e); Close (Consumer.accept_ret e)])
  /\ (existsb is_create (Consumer.calls (Consumer.main pf e)) = true ->
      Consumer.setup_fails e = false /\ 0 <= Consumer.accept_ret e).
Proof.
  unfold Consumer.main, Consumer.setup, Consumer.setup_fails. unfold_M.
  destruct (Consumer.socket_ret e <? 0) eqn:E1; unfold_M; [done|].
  destruct (Consumer.setsockopt_ret e <? 0) eqn:E2; unfold_M; [done|].
  destruct (Consumer.bind_ret e <? 0) eqn:E3; unfold_M; [done|].
  destruct (Consumer.listen_ret e <? 0) eqn:E4; unfold_M; [done|].
  destruct (Consumer.interrupted e && Consumer.sa_restart e); unfold_M; [done|].
  destruct (Consumer.accept_ret e <? 0) eqn:E5; unfold_M.
  { destruct (Consumer.sigalrm_delivered e); unfold_M; done. }
  match goal with
  | |- context [create_loop ?r ?f 0 0 ?tr] =>
      destruct (create_loop_from r f 0 tr) as (n & -> & _)
  end.
  destruct (Consumer.all_returned _); [|done].
  unfold Consumer.teardown. unfold mbind at 1, M_bind at 1.
  rewrite !join_loop_from. unfold_M. rewrite ?join_loop_from. unfold_M. intros _.
  split.
  - rewrite !List.filter_app, !filter_map_none by done.
    by destruct (n <=? 1)%nat.
  - intros _. split; [done|]. by apply Z.ltb_ge.
Qed.

Lemma consumer_main_descriptors_witness :
  Consumer.exit_status (Consumer.main Consumer.pf0 Consumer.env_interrupted) = Exited 0
  /\ List.filter is_close
       (Consumer.calls (Consumer.main Consumer.pf0 Consumer.env_interrupted))
     = [Close 3].
Proof.
  assert (H : Consumer.exit_status (Consumer.main Consumer.pf0 Consumer.env_interrupted)
              = Exited 0) by (vm_compute; reflexivity).
  split; [exact H|].
  exact (proj1 (consumer_main_descriptors Consumer.pf0 Consumer.env_interrupted 0 H)).
Defined.

End MainMore.

(* ===================================================================== *)
(** ** More about [main] of the producer *)
(* ===================================================================== *)

Section ProducerMainMore.
Import Wire Sys Producer.

#[local] Arguments Sys.create_loop : simpl never.
#[local] Arguments Sys.join_loop : simpl never.
#[local] Arguments Producer.connect_loop : simpl never.

Lemma count_app p a b : count p (a ++ b) = (count p a + count p b)%nat.
Proof. unfold count. by rewrite List.filter_app, length_app. Qed.

Ltac read_calls :=
  unfold count, retry_block;
  cbn [List.filter app is_reap is_fclose is_socket_made is_close length];
  repeat match goal with
         | H : (0 <=? _) = _ |- _ => rewrite H
         end;
  cbn [List.filter app is_reap is_fclose is_socket_made is_close length];
  try done.

(** What the connect loop leaves behind, whatever the environment: with a
    connected socket, one socket more made than closed, no call about the
    child or the file; on failure, every socket it made closed, the child
    killed and waited for, the file closed. *)
Lemma connect_loop_calls e pid f k tr :
  (k + S f = 51)%nat ->
  exists r ext,
    connect_loop e pid (S f) k (Z.of_nat k) tr = (r, tr ++ ext)
    /\ match r with
       | Done fd =>
           List.filter is_reap ext = [] /\ List.filter is_fclose ext = []
           /\ count is_socket_made ext = S (count is_close ext)
       | Exit c =>
           c = EXIT_FAILURE
           /\ List.filter is_reap ext = [Kill pid SIGTERM; Waitpid pid]
           /\ List.filter is_fclose ext = [Fclose]
           /\ count is_socket_made ext = count is_close ext
       | _ => False
       end.
Proof.
  revert k tr. induction f as [|f IH]; intros k tr Hk.
  all: destruct (Z.ltb_spec (socket_ret e k) 0) as [Hs|Hs].
  1,3: assert (Hle : (0 <=? socket_ret e k) = false) by (apply Z.leb_gt; lia);
       rewrite connect_loop_S; unfold_M;
       destruct (Z.ltb_spec (socket_ret e k) 0); [|lia]; unfold_M;
       rewrite fatal_eq, <- !app_assoc; eexists _, _;
       split; [reflexivity|]; repeat split; read_calls.
  all: assert (Hle : (0 <=? socket_ret e k) = true) by (apply Z.leb_le; lia).
  all: destruct (Z.eqb_spec (connect_ret e k) 0) as [Hc|Hc].
  1,3: rewrite connect_loop_S; unfold_M;
       destruct (Z.ltb_spec (socket_ret e k) 0); [lia|]; unfold_M;
       rewrite Hc; cbn; rewrite <- !app_assoc; eexists _, _;
       split; [reflexivity|]; repeat split; read_calls.
  all: destruct (refused (connect_errno e k)) eqn:Hx.
  2,4: rewrite connect_loop_S; unfold_M;
       destruct (Z.ltb_spec (socket_ret e k) 0); [lia|]; unfold_M;
       destruct (Z.eqb_spec (connect_ret e k) 0); [done|]; unfold_M;
       destruct (connect_errno e k); try done; unfold_M;
       rewrite fatal_eq, <- !app_assoc; eexists _, _;
       split; [reflexivity|]; repeat split; read_calls.
  all: rewrite connect_loop_refused by (done || lia).
  all: destruct (Z.ltb_spec MAX_RETRIES (Z.of_nat (S k)));
       unfold MAX_RETRIES in *; try lia.
  - eexists _, _. split; [reflexivity|]. repeat split; read_calls.
  - destruct (IH (S k) (tr ++ retry_block e k)) as (r & ext & Heq & Hres); [lia|].
    rewrite Heq, <- app_assoc. exists r, (retry_block e k ++ ext).
    split; [reflexivity|].
    assert (H1 : List.filter is_reap (retry_block e k) = []) by read_calls.
    assert (H2 : List.filter is_fclose (retry_block e k) = []) by read_calls.
    assert (H3 : count is_socket_made (retry_block e k) = 1%nat) by read_calls.
    assert (H4 : count is_close (retry_block e k) = 1%nat) by read_calls.
    destruct r as [fd|c| |]; [| |done|done].
    + destruct Hres as (R1 & R2 & R3).
      rewrite !List.filter_app, !count_app, H1, H2, H3, H4, R1, R2, R3. done.
    + destruct Hres as (-> & R1 & R2 & R3).
      rewrite !List.filter_app, !count_app, H1, H2, H3, H4, R1, R2, R3. done.
Qed.

(** The calls of the parent about the child, the file and its sockets, on
    every path on which it exits. *)
Lemma producer_main_calls pf e code :
  0 < fork_ret e -> exit_status (main pf e) = Exited code ->
  List.filter is_reap (calls (main pf e))
  = (if code =? 0 then [Waitpid (fork_ret e)]
     else [Kill (fork_ret e) SIGTERM; Waitpid (fork_ret e)])
  /\ List.filter is_fclose (calls (main pf e))
     = match fopen_ret e with Some _ => [Fclose] | None => [] end
  /\ count is_socket_made (calls (main pf e)) = count is_close (calls (main pf e)).
Proof.
  intros Hfork. unfold main, setup. unfold_M.
  destruct (Z.ltb_spec (fork_ret e) 0); [lia|]; unfold_M.
  destruct (Z.eqb_spec (fork_ret e) 0); [lia|]; unfold_M.
  destruct (fopen_ret e) as [f|]; unfold_M; [|by intros [= <-]].
  match goal with
  | |- context [connect_loop e ?pid connect_fuel 0 0 ?tr] =>
      destruct (connect_loop_calls e pid 50 0 tr eq_refl) as (r & ext & Heq & Hres);
      change (S 50) with connect_fuel in *; change (Z.of_nat 0) with 0 in Heq;
      rewrite Heq
  end.
  destruct r as [fd|c| |]; [| |done|done].
  - destruct Hres as (R1 & R2 & R3).
    match goal with
    | |- context [create_loop ?r ?fu 0 0 ?tr] =>
        destruct (create_loop_from r fu 0 tr) as (made & -> & _)
    end.
    cbn [created file Nat.add].
    destruct (killed _); [done|]. destruct (all_returned _); [|done].
    unfold teardown. unfold mbind at 1, M_bind at 1. cbn [created].
    rewrite !join_loop_from. unfold_M. rewrite ?join_loop_from. unfold_M.
    intros [= <-]. cbn [Z.eqb].
    unfold count in *.
    rewrite !List.filter_app, !length_app, R1, R2, R3.
    rewrite !filter_map_none by (by intros []).
    destruct (made <=? 1)%nat; cbn; (split; [done|]); (split; [done|]); lia.
  - destruct Hres as (-> & R1 & R2 & R3). intros [= <-]. cbn [calls].
    unfold count in *. rewrite !List.filter_app, !length_app, R1, R2, R3. done.
Qed.

(** X17. The parent never leaves the consumer behind.  On every path on
    which [main] of the producer exits after a successful [fork], it
    waits for the child exactly once; when it exits with a failure code it
    has sent the child SIGTERM once, before it waits; when it exits with 0
    it has sent the child no signal. *)
Theorem producer_reaps_consumer pf e code :
  0 < fork_ret e -> exit_status (main pf e) = Exited code ->
  List.filter is_reap (calls (main pf e))
  = (if code =? 0 then [Waitpid (fork_ret e)]
     else [Kill (fork_ret e) SIGTERM; Waitpid (fork_ret e)]).
Proof. intros Hf Hx. exact (proj1 (producer_main_calls pf e code Hf Hx)). Qed.

Lemma producer_reaps_consumer_witness :
  0 < fork_ret env_refused
  /\ exit_status (main pf0 env_refused) = Exited EXIT_FAILURE
  /\ List.filter is_reap (calls (main pf0 env_refused))
     = [Kill 77 SIGTERM; Waitpid 77].
Proof.
  assert (H1 : 0 < fork_ret env_refused) by (vm_compute; reflexivity).
  assert (H2 : exit_status (main pf0 env_refused) = Exited EXIT_FAILURE)
    by (vm_compute; reflexivity).
  split; [exact H1|]. split; [exact H2|].
  exact (producer_reaps_consumer pf0 env_refused EXIT_FAILURE H1 H2).
Defined.

(** X18. The parent leaks nothing.  On every path on which [main] of the
    producer exits after a successful [fork], it has closed the input file
    exactly once if [fopen] opened it and not at all otherwise, and it has
    closed as many sockets as [socket] gave it: each socket of a failed
    attempt, and the connected one at the end. *)
Theorem producer_releases_descriptors pf e code :
  0 < fork_ret e -> exit_status (main pf e) = Exited code ->
  List.filter is_fclose (calls (main pf e))
  = match fopen_ret e with Some _ => [Fclose] | None => [] end
  /\ count is_socket_made (calls (main pf e)) = count is_close (calls (main pf e)).
Proof. intros Hf Hx. exact (proj2 (producer_main_calls pf e code Hf Hx)). Qed.

Lemma producer_releases_descriptors_witness :
  0 < fork_ret env_good
  /\ exit_status (main pf0 env_good) = Exited 0
  /\ count is_socket_made (calls (main pf0 env_good))
     = count is_close (calls (main pf0 env_good)).
Proof.
  assert (H1 : 0 < fork_ret env_good) by (vm_compute; reflexivity).
  assert (H2 : exit_status (main pf0 env_good) = Exited 0)
    by (vm_compute; reflexivity).
  split; [exact H1|]. split; [exact H2|].
  exact (proj2 (producer_releases_descriptors pf0 env_good 0 H1 H2)).
Defined.

End ProducerMainMore.

(* ===================================================================== *)
(** ** Facts about the two programs on one connection *)
(* ===================================================================== *)

Section LinkFacts.
Import Wire Sys Link.

(** A step of a producer worker adds to what is on the connection. *)
Lemma producer_step_transmitted pf t r s s' :
  Producer.thread_step pf t r s = Some s' ->
  exists ext, transmitted (Producer.output s')
              = transmitted (Producer.output s) ++ ext.
Proof.
  intros Hstep. unfold Producer.thread_step in Hstep.
  destruct (Producer.killed s); [done|].
  destruct (Producer.threads s !! t) as [p|]; [|done].
  destruct p; repeat case_match; simplify_eq; unfold Producer.after_send; cbn;
    try (by exists []; rewrite app_nil_r); by eexists.
Qed.

(** A step of a consumer worker is a [recv], which takes what it returns,
    or leaves what has been received as it was. *)
Lemma consumer_step_received pf t r s s' :
  Consumer.thread_step pf t r s = Some s' ->
  received (Consumer.output s') = received (Consumer.output s)
  \/ (Consumer.threads s !! t = Some Consumer.AtRecv
      /\ received (Consumer.output s') = received (Consumer.output s) ++ r.2).
Proof.
  intros Hstep. unfold Consumer.thread_step in Hstep.
  destruct (Consumer.threads s !! t) as [p|]; [|done].
  destruct p; repeat case_match; simplify_eq; unfold Consumer.store; cbn;
    repeat case_match; cbn; auto.
Qed.

(** Each program runs as it does alone, and what the consumer has received
    is the beginning of what the producer has transferred. *)
Lemma link_reachable pfp pfc np nc src disp s :
  reachable pfp pfc np nc src disp s ->
  Producer.reachable pfp np src disp (producer s)
  /\ Consumer.reachable pfc nc (consumer s)
  /\ exists rest, transmitted (Producer.output (producer s))
                  = received (Consumer.output (consumer s)) ++ rest.
Proof.
  induction 1 as [|s l s' _ (IHp & IHc & rest & IHs) Hstep].
  - split; [constructor|]. split; [constructor|]. by exists [].
  - destruct l as [t r|t n]; cbn in Hstep.
    + destruct (Producer.thread_step pfp t r (producer s)) as [sp|] eqn:E; [|done].
      simplify_eq. cbn. split; [by eapply Producer.reach_step|]. split; [done|].
      destruct (producer_step_transmitted _ _ _ _ _ E) as [ext ->].
      exists (rest ++ ext). by rewrite IHs, app_assoc.
    + destruct (n <=? Z.of_nat (length (in_flight s))); [|done].
      destruct (Consumer.thread_step pfc t _ (consumer s)) as [sc|] eqn:E; [|done].
      simplify_eq. cbn. split; [done|]. split; [by eapply Consumer.reach_step|].
      destruct (consumer_step_received _ _ _ _ _ E) as [->|[_ ->]]; [by exists rest|].
      cbn [snd]. unfold in_flight. rewrite IHs, drop_app_length.
      exists (drop (Z.to_nat n) rest). by rewrite <- app_assoc, take_drop.
Qed.

Lemma link_reachable_run pfp pfc np nc src disp sched s :
  reachable pfp pfc np nc src disp s ->
  reachable pfp pfc np nc src disp (run pfp pfc sched s).
Proof.
  revert s. induction sched as [|l sched IH]; intros s H; cbn; [done|].
  destruct (step pfp pfc l s) eqn:E; apply IH; [|done].
  eapply reach_step; eauto.
Qed.

(** What [recv] has returned is what [recv] can return. *)
Lemma consumer_recvs_ok pf n s t k buf :
  Consumer.reachable pf n s -> In (Consumer.Recv t k buf) (Consumer.output s) ->
  Consumer.recv_ok k buf = true.
Proof.
  induction 1 as [|s t0 r s' _ IH Hstep]; [done|].
  unfold Consumer.thread_step in Hstep.
  destruct (Consumer.threads s !! t0) as [p|]; [|done].
  destruct p; repeat case_match; simplify_eq; unfold Consumer.store; cbn;
    repeat case_match; cbn; try done;
    try (by intros [?|?]; [done|auto]);
    intros [[= <- <- <-]|?]; auto.
Qed.

(** With whole frames only, what is on the connection is the frames of
    the values whose [send] completed, and what was received is the
    complete frames received. *)
Lemma whole_sends_frames h out :
  (forall t v buf k, In (Producer.Send t v buf k) out -> buf = send_frame h v) ->
  whole_sends out = true ->
  transmitted out = concat (map (send_frame h) (Producer.sent out)).
Proof.
  induction out as [|e out IH]; intros Hb Hw; [done|].
  assert (Hb' : forall t v buf k, In (Producer.Send t v buf k) out ->
                                  buf = send_frame h v) by (intros; eapply Hb; by right).
  destruct e as [| |t v buf k|]; cbn in *; auto.
  apply andb_prop in Hw as [Hk Hw]. rewrite (IH Hb' Hw).
  rewrite (Hb t v buf k) by by left.
  destruct (Z.eqb_spec k 4) as [->|Hne].
  - rewrite map_app, concat_app. cbn. rewrite app_nil_r. f_equal.
    apply take_ge. by rewrite send_frame_big_endian.
  - cbn in Hk. apply Z.leb_le in Hk.
    replace (Z.to_nat k) with 0%nat by lia. cbn. by rewrite app_nil_r.
Qed.

Lemma whole_recvs_frames out :
  (forall t k buf, In (Consumer.Recv t k buf) out -> Consumer.recv_ok k buf = true) ->
  whole_recvs out = true ->
  received out = concat (Consumer.frames out)
  /\ Forall (fun f => length f = 4%nat) (Consumer.frames out).
Proof.
  induction out as [|e out IH]; intros Hb Hw; [done|].
  assert (Hb' : forall t k buf, In (Consumer.Recv t k buf) out ->
                                Consumer.recv_ok k buf = true)
    by (intros; eapply Hb; by right).
  destruct e as [t k buf| | |]; cbn in *; auto.
  apply andb_prop in Hw as [Hk Hw]. destruct (IH Hb' Hw) as [IH1 IH2].
  pose proof (Hb t k buf (or_introl eq_refl)) as Hok.
  destruct (Z.eqb_spec k 4) as [->|Hne].
  - rewrite concat_app, IH1. cbn. rewrite app_nil_r. split; [done|].
    apply Forall_app. split; [done|]. constructor; [|done].
    by apply (recv_ok_4 4).
  - cbn in Hk. apply Z.leb_le in Hk. split; [|done].
    rewrite IH1. unfold Consumer.recv_ok in Hok.
    destruct buf as [|b buf]; [by rewrite app_nil_r|]. exfalso.
    apply orb_true_iff in Hok
      as [[_ H]%andb_true_iff|[[_ _]%andb_true_iff H]%andb_true_iff];
      apply Z.eqb_eq in H; cbn [length] in H; lia.
Qed.

(** Frames of four bytes that begin a stream of frames of four bytes are
    the first frames of the stream. *)
Lemma frames_aligned (fs gs : list (list byte)) rest :
  Forall (fun f => length f = 4%nat) fs ->
  Forall (fun g => length g = 4%nat) gs ->
  concat gs = concat fs ++ rest ->
  fs = take (length fs) gs.
Proof.
  revert gs. induction fs as [|f fs IH]; intros gs Hf Hg H; [done|].
  apply Forall_cons in Hf as [Hf Hfs].
  destruct gs as [|g gs].
  - cbn in H. destruct f; [done|]. discriminate H.
  - apply Forall_cons in Hg as [Hg Hgs]. cbn in H.
    rewrite <- app_assoc in H.
    apply app_inj_1 in H as [-> H]; [|congruence].
    cbn. f_equal. by apply IH.
Qed.

(** A value whose [send] completed was handed to [send]. *)
Lemma sent_in_offered v out :
  In v (Producer.sent out) -> In v (Producer.offered out).
Proof.
  induction out as [|e out IH]; [done|].
  destruct e as [| |t w buf k|]; cbn; auto.
  destruct (k =? 4); rewrite ?in_app_iff; [|by auto].
  intros [H|H]; auto.
Qed.

(** C3, as the code has it.  Decoding the frame that encodes a 32-bit
    signed integer gives the integer back, whatever the byte orders of the
    two hosts.  Hence, in every state of every run of the two programs on
    one connection, as long as every [send] has transferred its whole frame
    or nothing and every [recv] has returned a whole frame or nothing: the
    integers decoded from the frames received are the first of the values
    whose [send] completed, in the order sent, and each slot below the
    write index of the consumer holds one of these values. *)
Theorem frame_round_trip :
  (forall h1 h2 v, int_range v -> recv_value h2 (send_frame h1 v) = v)
  /\ (forall pfp pfc np nc src disp s,
        reachable pfp pfc np nc src disp s ->
        (forall v, In (Producer.Int v) src -> int_range v) ->
        whole_sends (Producer.output (producer s)) = true ->
        whole_recvs (Consumer.output (consumer s)) = true ->
        let sent := Producer.sent (Producer.output (producer s)) in
        let frames := Consumer.frames (Consumer.output (consumer s)) in
        frames = map (send_frame (host pfp)) (take (length frames) sent)
        /\ take (Z.to_nat (Consumer.data_index (consumer s)))
                (Consumer.data_array (consumer s))
           ++ Consumer.in_hand pfc (consumer s)
           = take (length frames) sent
        /\ forall k, 0 <= k < Consumer.data_index (consumer s) ->
             exists v, Consumer.data_array (consumer s) !! Z.to_nat k = Some v
                       /\ In v sent).
Proof.
  split; [intros; by apply recv_send_frame|].
  intros pfp pfc np nc src disp s Hreach Hfit Hws Hwr sent frames.
  destruct (link_reachable _ _ _ _ _ _ _ Hreach) as (Hp & Hc & rest & Hstream).
  assert (Hbuf : forall t v buf k,
            In (Producer.Send t v buf k) (Producer.output (producer s)) ->
            buf = send_frame (host pfp) v).
  { intros t v buf k Hin. by destruct (producer_frames _ _ _ _ _ _ _ _ _ Hp Hin). }
  assert (Hsrc : forall v, In v sent -> int_range v).
  { intros v Hin. apply Hfit.
    pose proof (Producer.inv_scanned _ _ (producer_inv_reachable _ _ _ _ _ Hp)) as Hsc.
    pose proof (Producer.inv_source _ _ (producer_inv_reachable _ _ _ _ _ Hp)) as Hso.
    pose proof (Producer.inv_offered _ _ (producer_inv_reachable _ _ _ _ _ Hp)) as Hof.
    rewrite <- Hso. apply in_or_app. left. apply ints_In. rewrite Hsc.
    apply list_elem_of_In. rewrite <- Hof. apply list_elem_of_In.
    apply in_or_app. left. by apply sent_in_offered. }
  rewrite (whole_sends_frames _ _ Hbuf Hws) in Hstream.
  destruct (whole_recvs_frames _ (fun t k buf => consumer_recvs_ok _ _ _ t k buf Hc) Hwr)
    as [Hrecv Hfour].
  rewrite Hrecv in Hstream. fold sent frames in Hstream, Hfour.
  assert (Hal : frames = take (length frames) (map (send_frame (host pfp)) sent)).
  { eapply frames_aligned; [done| |exact Hstream].
    apply Forall_map, Forall_forall. intros v _. cbn.
    by rewrite send_frame_big_endian. }
  rewrite firstn_map in Hal.
  destruct (consumer_order_reachable _ _ _ Hc) as [Ic Oc].
  assert (Hvals : take (Z.to_nat (Consumer.data_index (consumer s)))
                       (Consumer.data_array (consumer s))
                  ++ Consumer.in_hand pfc (consumer s)
                  = take (length frames) sent).
  { rewrite <- (Consumer.ord_arrival _ _ Oc). fold frames. rewrite Hal at 1.
    rewrite map_map.
    transitivity (map id (take (length frames) sent)); [|apply map_id].
    apply map_ext_in. intros v Hin.
    apply recv_send_frame, Hsrc, list_elem_of_In.
    apply (subseteq_take (length frames) sent). by apply list_elem_of_In. }
  split; [done|]. split; [done|].
  intros k Hk.
  pose proof (Consumer.inv_length _ _ Ic) as Hl.
  pose proof (Consumer.inv_index _ _ Ic) as Hi.
  destruct (lookup_lt_is_Some_2 (Consumer.data_array (consumer s)) (Z.to_nat k))
    as [v Hv].
  { rewrite Hl. unfold Consumer.MAX_DATA in *. lia. }
  exists v. split; [done|].
  assert (Hin : v ∈ take (length frames) sent).
  { rewrite <- Hvals. apply elem_of_app. left.
    apply list_elem_of_lookup. exists (Z.to_nat k).
    rewrite lookup_take_lt by lia. done. }
  apply list_elem_of_In. by apply (subseteq_take (length frames) sent).
Qed.

Lemma frame_round_trip_witness :
  let s := run Producer.pf0 Consumer.pf0
             (replicate 7 (Produce 0 (Producer.Returns 4))
              ++ [Consume 1 0; Consume 1 0; Consume 1 4; Consume 1 0; Consume 1 0])
             (init 2 2 (map Producer.Int [-7; 3]) SIG_IGN) in
  int_range (-7)
  /\ recv_value BigEndian (send_frame LittleEndian (-7)) = -7
  /\ reachable Producer.pf0 Consumer.pf0 2 2 (map Producer.Int [-7; 3]) SIG_IGN s
  /\ whole_sends (Producer.output (producer s)) = true
  /\ whole_recvs (Consumer.output (consumer s)) = true
  /\ Consumer.data_index (consumer s) = 1
  /\ exists v, Consumer.data_array (consumer s) !! Z.to_nat 0 = Some v
               /\ In v (Producer.sent (Producer.output (producer s))).
Proof.
  intros s.
  assert (H : int_range (-7)) by (unfold int_range; lia).
  assert (Hs : reachable Producer.pf0 Consumer.pf0 2 2
                 (map Producer.Int [-7; 3]) SIG_IGN s)
    by (apply link_reachable_run, reach_init).
  assert (Hfit : forall v, In (Producer.Int v) (map Producer.Int [-7; 3]) ->
                           int_range v).
  { intros v [[= <-]|[[= <-]|[]]]; unfold int_range; lia. }
  assert (Hw1 : whole_sends (Producer.output (producer s)) = true)
    by (vm_compute; reflexivity).
  assert (Hw2 : whole_recvs (Consumer.output (consumer s)) = true)
    by (vm_compute; reflexivity).
  assert (Hi : Consumer.data_index (consumer s) = 1) by (vm_compute; reflexivity).
  split; [exact H|]. split; [exact (proj1 frame_round_trip LittleEndian BigEndian (-7) H)|].
  split; [exact Hs|]. split; [exact Hw1|]. split; [exact Hw2|]. split; [exact Hi|].
  destruct (proj2 frame_round_trip _ _ _ _ _ _ s Hs Hfit Hw1 Hw2) as (_ & _ & Hslots).
  apply Hslots. rewrite Hi. lia.
Defined.

(** When a [send] transfers part of a frame the stream is no longer cut
    at frame boundaries.  In this run 258 and -1 are handed to [send], the
    first [send] transfers 2 bytes, and the consumer stores 65535, which
    no worker has sent. *)
Lemma short_send_corrupts_buffer :
  reachable Producer.pf0 Consumer.pf0 2 2 torn_file SIG_IGN torn
  /\ Producer.offered (Producer.output (producer torn)) = [258; -1]
  /\ Consumer.data_index (consumer torn) = 1
  /\ Consumer.data_array (consumer torn) !! 0%nat = Some 65535
  /\ ~ In 65535 (Producer.offered (Producer.output (producer torn))).
Proof.
  split; [apply link_reachable_run, reach_init|].
  split; [vm_compute; reflexivity|]. split; [vm_compute; reflexivity|].
  split; [vm_compute; reflexivity|].
  assert (E : Producer.offered (Producer.output (producer torn)) = [258; -1])
    by (vm_compute; reflexivity).
  rewrite E. intros [H|[H|[]]]; discriminate H.
Qed.

End LinkFacts.
